(** * redy-badger: a Redis-protocol command layer over Badger

    Shallow embedding of the command layer of redy-badger (the store facade
    of [badger.go] and the handlers and Bloom codec of the server file) and
    the properties of its specification that were checked against it.

    Byte strings are [list byte]; unsigned machine integers are [Z] with the
    wrap-around written out; a [float64] is carried as its IEEE-754 bit
    pattern (the code only ever moves it through [math.Float64bits] and
    [math.Float64frombits]); the Badger store is a finite map together with
    the read and write faults the engine may report. *)

From Stdlib Require Import ZArith List Lia String Ascii Bool.
From Stdlib.Strings Require Import Byte.
From stdpp Require Import base option list gmap strings sorting.

Local Open Scope Z_scope.
Set Warnings "-register-all".

Abbreviation bytes := (list byte).

(** ** Bytes as map keys *)

#[global] Instance byte_eq_decision : EqDecision byte.
Proof.
  intros x y. destruct (Byte.eqb x y) eqn:E.
  - left. by apply Byte.byte_dec_bl.
  - right. intros ->. by rewrite Byte.byte_dec_lb in E.
Defined.

#[global] Instance byte_countable : Countable byte :=
  inj_countable Byte.to_N Byte.of_N Byte.of_to_N.

(** The bytes of a string literal, [[]byte("...")]. *)
Definition bs (s : string) : bytes := list_byte_of_string s.

(** [CommandArgument.String()]: the argument bytes seen as a string. *)
Definition str (b : bytes) : string := string_of_list_byte b.

(** ** Errors

    The error values that travel through the command layer.  The messages
    themselves are irrelevant to the properties below, the identity of the
    error is not. *)

Inductive Error : Type :=
  | ErrKeyNotFound                      (* badger.ErrKeyNotFound *)
  | ErrEmptyKey                         (* badger.ErrEmptyKey *)
  | ErrKeyExists                        (* var ErrKeyExists, badger.go:9 *)
  | ErrStoreIO (code : Z)               (* any other engine-level fault *)
  | EOF                                 (* io.EOF *)
  | ErrUnexpectedEOF                    (* io.ErrUnexpectedEOF *)
  | ErrInvalidType (ty : string)        (* encoding/binary: not a fixed-size type *)
  | ErrSyntax (fn : string) (input : string)   (* strconv.ErrSyntax *)
  | ErrRange (fn : string) (input : string)    (* strconv.ErrRange *)
  | ErrCuckooLen (len : Z)              (* cuckoo.Decode: not a multiple of 4 *)
  | ErrCuckooEmpty                      (* cuckoo.Decode: empty input *)
  | ErrJoin (errs : list Error).        (* errors.Join of at least one error *)

(** [errors.Join]: nil values are dropped; the result is nil when nothing is
    left. *)
Definition errors_Join (errs : list (option Error)) : option Error :=
  match omap id errs with
  | [] => None
  | es => Some (ErrJoin es)
  end.

(** ** encoding/binary *)

Module Binary.

Definition Z_of_byte (b : byte) : Z := Z.of_N (Byte.to_N b).

(** [byte(v)]: truncation of an unsigned integer to its low 8 bits. *)
Definition byte_of_Z (z : Z) : byte :=
  default x00 (Byte.of_N (Z.to_N (z mod 256))).

Definition uint64_modulus : Z := 2 ^ 64.
Definition uint64 (z : Z) : Z := z mod uint64_modulus.

Inductive ByteOrder := LittleEndian | BigEndian.

(** [littleEndian.PutUint64] and [bigEndian.PutUint64]. *)
Definition PutUint64 (o : ByteOrder) (v : Z) : bytes :=
  let le := [ byte_of_Z v; byte_of_Z (v ≫ 8); byte_of_Z (v ≫ 16);
              byte_of_Z (v ≫ 24); byte_of_Z (v ≫ 32); byte_of_Z (v ≫ 40);
              byte_of_Z (v ≫ 48); byte_of_Z (v ≫ 56) ] in
  match o with LittleEndian => le | BigEndian => rev le end.

(** [littleEndian.Uint64] and [bigEndian.Uint64] on an 8-byte buffer. *)
Definition Uint64 (o : ByteOrder) (b : bytes) : Z :=
  match (match o with LittleEndian => b | BigEndian => rev b end) with
  | [b0; b1; b2; b3; b4; b5; b6; b7] =>
      Z.lor (Z_of_byte b0)
     (Z.lor (Z_of_byte b1 ≪ 8)
     (Z.lor (Z_of_byte b2 ≪ 16)
     (Z.lor (Z_of_byte b3 ≪ 24)
     (Z.lor (Z_of_byte b4 ≪ 32)
     (Z.lor (Z_of_byte b5 ≪ 40)
     (Z.lor (Z_of_byte b6 ≪ 48) (Z_of_byte b7 ≪ 56)))))))
  | _ => 0
  end.

(** A [bytes.Reader] (or any [io.Reader] over a byte slice) is the list of
    bytes not yet consumed. *)
Definition Reader := bytes.

(** [io.ReadFull(r, buf)] with [len(buf) = n > 0]: [io.EOF] when nothing
    is left, [io.ErrUnexpectedEOF] (after consuming what was there) when
    fewer than [n] bytes are left. *)
Definition ReadFull (n : nat) (r : Reader) : (bytes + Error) * Reader :=
  match r with
  | [] => (inr EOF, [])
  | _ => if decide (length r < n)%nat
         then (inr ErrUnexpectedEOF, [])
         else (inl (take n r), drop n r)
  end.

(** [binary.Read(r, order, &x)] for [x] of type [uint64] or [float64]
    (the latter as its bit pattern): the fast path of the library. *)
Definition Read64 (o : ByteOrder) (r : Reader) : (Z + Error) * Reader :=
  match ReadFull 8 r with
  | (inl buf, r') => (inl (Uint64 o buf), r')
  | (inr e, r') => (inr e, r')
  end.

(** [binary.Write(w, order, x)] for [x] of type [uint64] or [float64]:
    the bytes appended to the writer. *)
Definition Write64 (o : ByteOrder) (v : Z) : bytes := PutUint64 o v.

(** [binary.Write(w, order, x)] for [x] of type [uint].  The package
    encodes fixed-size values only (bool, the sized integers and floats,
    arrays and structs of them); [uint] and [int] are not among them, so
    the call writes nothing and returns an error. *)
Definition Write_uint (o : ByteOrder) (v : Z) : bytes * option Error :=
  ([], Some (ErrInvalidType "uint")).

(** [binary.Read(r, order, &x)] for [x] of type [uint]: rejected for the
    same reason before anything is read; [x] keeps its value. *)
Definition Read_uint (o : ByteOrder) (r : Reader) (x : Z)
  : (Z * option Error) * Reader :=
  ((x, Some (ErrInvalidType "*uint")), r).

End Binary.

(** ** bits-and-blooms/bitset: the bit array under a Bloom filter *)

Module Bitset.

Definition wordSize : Z := 64.
Definition log2WordSize : Z := 6.

(** [Cap()]: the largest index, [^uint(0)]. *)
Definition Cap : Z := 2 ^ 64 - 1.

(** [type BitSet struct { length uint; set []uint64 }] *)
Record BitSet := mkBitSet { length : Z; set : list Z }.

(** [wordsNeeded(i)]: the number of 64-bit words that hold [i] bits. *)
Definition wordsNeeded (i : Z) : nat :=
  if decide (Cap - wordSize + 1 < i)
  then Z.to_nat (Cap ≫ log2WordSize)
  else Z.to_nat ((i + (wordSize - 1)) ≫ log2WordSize).

(** [wordsIndex(i)]: the position of bit [i] inside its word. *)
Definition wordsIndex (i : Z) : Z := Z.land i (wordSize - 1).

(** [New(length)]: all bits clear.  The words are taken to be there: the
    library falls back to an empty set of length 0 when they cannot be
    allocated, a case the properties below keep out of by asking for a bit
    set that holds its bits. *)
Definition New (length : Z) : BitSet :=
  mkBitSet length (replicate (wordsNeeded length) 0).

(** [b.Test(i)]: out-of-range bits read as clear. *)
Definition Test (b : BitSet) (i : Z) : bool :=
  if decide (length b <= i) then false
  else negb (Z.land (default 0 (set b !! Z.to_nat (i ≫ log2WordSize)))
                    (1 ≪ wordsIndex i) =? 0).

(** [b.extendSet(i)]: grow to [i + 1] bits, the new words being zero.
    Growth is taken to succeed; where the new words cannot be allocated
    the library panics, which this function does not show. *)
Definition extendSet (b : BitSet) (i : Z) : BitSet :=
  let nsize := wordsNeeded (i + 1) in
  mkBitSet (i + 1)
           (set b ++ replicate (nsize - List.length (set b))%nat 0).

(** [b.Set(i)]: grows the set when [i] is past its end.  The word of bit
    [i] then exists (an index past the words would be a run-time panic;
    it takes a set of more than [2^64 - 64] bits to get there). *)
Definition Set_ (b : BitSet) (i : Z) : BitSet :=
  let b' := if decide (length b <= i) then extendSet b i else b in
  mkBitSet (length b')
           (alter (fun w => Z.lor w (1 ≪ wordsIndex i))
                  (Z.to_nat (i ≫ log2WordSize)) (set b')).

(** Number of set bits of one word, and [b.Count()]. *)
Definition popcount (w : Z) : Z :=
  Z.of_nat (List.length (filter (fun i => Z.testbit w i = true) (seqZ 0 64))).

Definition Count (b : BitSet) : Z :=
  foldr (fun w acc => popcount w + acc) 0 (set b).

(** [b.WriteTo(stream)]: the length, then the words that hold it, all
    big-endian (the library's default [binaryOrder]). *)
Definition WriteTo (b : BitSet) : bytes :=
  Binary.Write64 Binary.BigEndian (length b)
  ++ flat_map (Binary.Write64 Binary.BigEndian)
              (take (wordsNeeded (length b)) (set b)).

(** Reading [n] big-endian words; a short stream is an
    [io.ErrUnexpectedEOF]. *)
Fixpoint readUint64Array (n : nat) (r : Binary.Reader)
  : (list Z + Error) * Binary.Reader :=
  match n with
  | O => (inl [], r)
  | S n' =>
      match Binary.Read64 Binary.BigEndian r with
      | (inl w, r') =>
          match readUint64Array n' r' with
          | (inl ws, r'') => (inl (w :: ws), r'')
          | (inr e, r'') => (inr e, r'')
          end
      | (inr _, r') => (inr ErrUnexpectedEOF, r')
      end
  end.

(** [b.ReadFrom(stream)]: the inverse of [WriteTo]. *)
Definition ReadFrom (r : Binary.Reader) : (BitSet + Error) * Binary.Reader :=
  match Binary.Read64 Binary.BigEndian r with
  | (inr _, r') => (inr ErrUnexpectedEOF, r')
  | (inl len, r') =>
      match readUint64Array (wordsNeeded len) r' with
      | (inl ws, r'') => (inl (mkBitSet len ws), r'')
      | (inr e, r'') => (inr e, r'')
      end
  end.

End Bitset.

(** ** seiflotfy/cuckoofilter: data and codec *)

Module Cuckoo.

Definition bucketSize : Z := 4.

(** [type bucket [bucketSize]fingerprint], a fingerprint being a byte. *)
Definition bucket : Type := byte * byte * byte * byte.

(** [type Filter struct { buckets []bucket; count uint; bucketPow uint }] *)
Record Filter := mkFilter { buckets : list bucket; count : Z; bucketPow : Z }.

(** [getNextPow2(n)] on [uint64], with the wrap-around of [n--] and
    [n++]. *)
Definition getNextPow2 (n : Z) : Z :=
  let n := Binary.uint64 (n - 1) in
  let n := Z.lor n (n ≫ 1) in
  let n := Z.lor n (n ≫ 2) in
  let n := Z.lor n (n ≫ 4) in
  let n := Z.lor n (n ≫ 8) in
  let n := Z.lor n (n ≫ 16) in
  let n := Z.lor n (n ≫ 32) in
  Binary.uint64 (n + 1).

(** [bits.TrailingZeros(x)] for a 64-bit [x] ([64] at zero). *)
Definition TrailingZeros (x : Z) : Z :=
  default 64 (head (filter (fun i => Z.testbit x i = true) (seqZ 0 64))).

Definition emptyBucket : bucket := (x00, x00, x00, x00).

(** [NewFilter(capacity)] *)
Definition NewFilter (capacity : Z) : Filter :=
  let capacity := getNextPow2 capacity / bucketSize in
  let capacity := if decide (capacity = 0) then 1 else capacity in
  mkFilter (replicate (Z.to_nat capacity) emptyBucket) 0
           (TrailingZeros capacity).

(** [cf.Encode()]: the fingerprints of every bucket, in order. *)
Definition Encode (cf : Filter) : bytes :=
  flat_map (fun b : bucket => let '(f0, f1, f2, f3) := b in [f0; f1; f2; f3])
           (buckets cf).

(** The buckets of an encoded filter, four bytes at a time. *)
Fixpoint chunk (l : bytes) : list bucket :=
  match l with
  | f0 :: f1 :: f2 :: f3 :: rest => (f0, f1, f2, f3) :: chunk rest
  | _ => []
  end.

(** [cf.Count()] *)
Definition Count (cf : Filter) : Z := count cf.

(** [Decode(bytes)]: rejects an input whose length is not a multiple of
    the bucket size, and an empty one; the count is the number of
    non-zero fingerprints. *)
Definition Decode (b : bytes) : Filter + Error :=
  if decide (Z.of_nat (List.length b) mod bucketSize <> 0)
  then inr (ErrCuckooLen (Z.of_nat (List.length b)))
  else if decide (List.length b = 0%nat) then inr ErrCuckooEmpty
  else
    let bk := chunk b in
    inl (mkFilter bk
           (Z.of_nat (List.length (filter (fun f => f <> x00) b)))
           (TrailingZeros (Z.of_nat (List.length bk)))).

End Cuckoo.

(** ** What the command layer takes from its libraries as given

    The hash functions, the floating-point formulas and the decimal-to-float
    conversion of the libraries are outside this development; the command
    layer uses them only through the operations below. *)

Class Externals := {
  (** [baseHashes(data)] of bloom: four 64-bit hashes of the member. *)
  baseHashes : bytes -> Z * Z * Z * Z;
  (** [bloom.EstimateParameters(n, p)]: bits and hash count for [n] items at
      false-positive rate [p]. *)
  EstimateParameters : Z -> Z -> Z * Z;
  (** The estimate of [ApproximatedSize] from the number of set bits, [m]
      and [k]. *)
  approximatedSize : Z -> Z -> Z -> Z;
  (** [strconv.ParseFloat(s, 32)]: the value (as a bit pattern) and the
      error. *)
  ParseFloat32 : string -> Z * option Error;
  (** [cf.InsertUnique(data)]: whether the member was inserted, and the
      filter afterwards. *)
  InsertUnique : Cuckoo.Filter -> bytes -> bool * Cuckoo.Filter;
  (** [cf.Lookup(data)] *)
  Lookup : Cuckoo.Filter -> bytes -> bool;
  (** The text served by [redeo.Info] for the given arguments. *)
  serverInfo : list bytes -> bytes
}.

(** ** bits-and-blooms/bloom *)

Module Bloom.
Section WithExternals.
Context `{Externals}.

(** [type BloomFilter struct { m uint; k uint; b *bitset.BitSet }] *)
Record BloomFilter := mkBloom { m : Z; k : Z; b : Bitset.BitSet }.

(** [New(m, k)] *)
Definition New (m k : Z) : BloomFilter :=
  mkBloom (Z.max 1 m) (Z.max 1 k) (Bitset.New m).

(** [NewWithEstimates(n, fp)]; the two estimates are [uint] values. *)
Definition NewWithEstimates (n : Z) (fp : Z) : BloomFilter :=
  let '(m, k) := EstimateParameters n fp in
  New (Binary.uint64 m) (Binary.uint64 k).

Definition hsel (h : Z * Z * Z * Z) (j : Z) : Z :=
  let '(h0, h1, h2, h3) := h in
  if decide (j = 0) then h0 else if decide (j = 1) then h1
  else if decide (j = 2) then h2 else h3.

(** [location(h, i)]: the [i]th hash, in [uint64] arithmetic. *)
Definition location (h : Z * Z * Z * Z) (i : Z) : Z :=
  Binary.uint64 (hsel h (i mod 2) + i * hsel h (2 + (((i + (i mod 2)) mod 4) / 2))).

(** [f.location(h, i)]: the bit tested for the [i]th hash.  [New] makes
    [m] at least 1; on a decoded record with [m = 0] Go's [%] is a run-time
    panic (integer divide by zero), whereas [mod] here is total: the
    properties that test or add ask for [wf_bloom], which has [1 <= m]. *)
Definition f_location (f : BloomFilter) (h : Z * Z * Z * Z) (i : Z) : Z :=
  location h i mod m f.

(** [f.Test(data)] *)
Definition Test (f : BloomFilter) (data : bytes) : bool :=
  let h := baseHashes data in
  forallb (fun i => Bitset.Test (b f) (f_location f h i)) (seqZ 0 (k f)).

(** One turn of the loop of [TestOrAdd]. *)
Definition testOrAdd_step (f : BloomFilter) (h : Z * Z * Z * Z)
    (st : bool * Bitset.BitSet) (i : Z) : bool * Bitset.BitSet :=
  let '(present, bset) := st in
  let l := f_location f h i in
  if Bitset.Test bset l then (present, bset)
  else (false, Bitset.Set_ bset l).

(** [f.TestOrAdd(data)]: [present] starts true and is cleared when a bit
    of the member is found clear, which is then set; [present] is the
    value returned. *)
Definition TestOrAdd (f : BloomFilter) (data : bytes) : bool * BloomFilter :=
  let h := baseHashes data in
  let '(present, bset) := foldl (testOrAdd_step f h) (true, b f) (seqZ 0 (k f)) in
  (present, mkBloom (m f) (k f) bset).

(** [f.ApproximatedSize()] *)
Definition ApproximatedSize (f : BloomFilter) : Z :=
  approximatedSize (Bitset.Count (b f)) (m f) (k f).

(** [f.WriteTo(stream)]: [m], [k], then the bit set. *)
Definition WriteTo (f : BloomFilter) : bytes :=
  Binary.Write64 Binary.BigEndian (Binary.uint64 (m f))
  ++ Binary.Write64 Binary.BigEndian (Binary.uint64 (k f))
  ++ Bitset.WriteTo (b f).

(** [f.ReadFrom(stream)]: on success every field of [f] is replaced. *)
Definition ReadFrom (f : BloomFilter) (r : Binary.Reader)
  : (BloomFilter + Error) * Binary.Reader :=
  match Binary.Read64 Binary.BigEndian r with
  | (inr e, r1) => (inr e, r1)
  | (inl m', r1) =>
      match Binary.Read64 Binary.BigEndian r1 with
      | (inr e, r2) => (inr e, r2)
      | (inl k', r2) =>
          match Bitset.ReadFrom r2 with
          | (inr e, r3) => (inr e, r3)
          | (inl b', r3) => (inl (mkBloom m' k' b'), r3)
          end
      end
  end.

End WithExternals.
End Bloom.

(** ** dgraph-io/badger: the store behind the facade

    The store is the map of its entries together with the faults the engine
    reports: a read, a write or a delete of a key may fail with an error of
    the engine's choosing.  Commands run one at a time here, so a commit
    never meets a conflict. *)

Module Badger.

Record DB := mkDB {
  entries : gmap bytes bytes;
  readFault : bytes -> option Error;
  setFault : bytes -> bytes -> option Error;
  deleteFault : bytes -> option Error
}.

(** A transaction is the store as the transaction sees it: its own writes
    are visible to its later reads. *)
Definition Txn : Type := DB.

Definition with_entries (txn : Txn) (e : gmap bytes bytes) : Txn :=
  mkDB e (readFault txn) (setFault txn) (deleteFault txn).

(** [*badger.Item] *)
Record Item := mkItem { Key : bytes; value : bytes }.

(** [txn.Get(key)] returns an item and a nil error, or a nil item and
    the error: [ErrEmptyKey], the engine's fault, or [ErrKeyNotFound]. *)
Definition Get (txn : Txn) (key : bytes) : Item + Error :=
  if decide (key = []) then inr ErrEmptyKey
  else match readFault txn key with
       | Some e => inr e
       | None =>
           match entries txn !! key with
           | Some v => inl (mkItem key v)
           | None => inr ErrKeyNotFound
           end
       end.

(** [txn.Set(key, val)] *)
Definition Set_ (txn : Txn) (key val : bytes) : Txn * option Error :=
  if decide (key = []) then (txn, Some ErrEmptyKey)
  else match setFault txn key val with
       | Some e => (txn, Some e)
       | None => (with_entries txn (<[key := val]> (entries txn)), None)
       end.

(** [txn.Delete(key)]: deleting an absent key is not an error. *)
Definition Delete (txn : Txn) (key : bytes) : Txn * option Error :=
  if decide (key = []) then (txn, Some ErrEmptyKey)
  else match deleteFault txn key with
       | Some e => (txn, Some e)
       | None => (with_entries txn (delete key (entries txn)), None)
       end.

(** [db.Update(fn)]: the writes of [fn] are committed iff [fn] returns
    nil.  [fn] may also change the variables it closes over, of type
    [S]; they keep their new value either way. *)
Definition Update {S : Type} (db : DB)
    (fn : Txn -> S -> (Txn * option Error) * S) (s : S)
  : (DB * option Error) * S :=
  match fn db s with
  | ((txn, None), s') => ((txn, None), s')
  | ((_, Some e), s') => ((db, Some e), s')
  end.

(** [db.View(fn)]: a read-only transaction. *)
Definition View {S : Type} (db : DB)
    (fn : Txn -> S -> option Error * S) (s : S) : option Error * S :=
  fn db s.

(** Byte-wise lexicographic order, the order of the store's iterators. *)
Fixpoint bytes_leb (x y : bytes) : bool :=
  match x, y with
  | [], _ => true
  | _ :: _, [] => false
  | a :: x', c :: y' =>
      if decide (a = c) then bytes_leb x' y'
      else (Byte.to_N a <? Byte.to_N c)%N
  end.

Definition bytes_le (x y : bytes) : Prop := bytes_leb x y = true.

#[global] Instance bytes_le_dec : RelDecision bytes_le.
Proof. intros x y. unfold bytes_le. apply _. Defined.

(** The keys an iterator visits from [it.Rewind()], in order. *)
Definition keys (txn : Txn) : list bytes :=
  merge_sort bytes_le (elements (dom (entries txn))).

(** [bytes.HasPrefix(key, prefix)] *)
Fixpoint HasPrefix (key prefix : bytes) : bool :=
  match prefix, key with
  | [], _ => true
  | _ :: _, [] => false
  | p :: prefix', c :: key' =>
      if decide (p = c) then HasPrefix key' prefix' else false
  end.

(** [it.Seek(prefix)]: skip the keys below [prefix]. *)
Fixpoint seek (prefix : bytes) (l : list bytes) : list bytes :=
  match l with
  | key :: l' => if bytes_leb prefix key then l else seek prefix l'
  | [] => []
  end.

(** Iterate while [it.ValidForPrefix(prefix)]. *)
Fixpoint whileValidForPrefix (prefix : bytes) (l : list bytes) : list bytes :=
  match l with
  | key :: l' =>
      if HasPrefix key prefix then key :: whileValidForPrefix prefix l' else []
  | [] => []
  end.

(** The keys visited by
    [for it.Seek(prefix); it.ValidForPrefix(prefix); it.Next()]. *)
Definition keysFrom (txn : Txn) (prefix : bytes) : list bytes :=
  whileValidForPrefix prefix (seek prefix (keys txn)).

End Badger.

(** ** The store facade ([badger.go]) *)

Import Badger (DB, Txn, Item, entries).

(** [Delete], badger.go:11 *)
Definition Delete (db : DB) (key : bytes) : DB * option Error :=
  fst (Badger.Update db (fun txn (_ : unit) => (Badger.Delete txn key, tt)) tt).

(** [DeleteBulk], badger.go:17: every key is tried, the failures are
    collected in [errs] and joined. *)
Definition DeleteBulk (db : DB) (keys : list bytes) : DB * option Error :=
  fst (Badger.Update db (fun txn (errs : list Error) =>
    let '(txn', errs') :=
      foldl (fun (st : Txn * list Error) key =>
               match Badger.Delete (fst st) key with
               | (txn', Some err) => (txn', snd st ++ [err])
               | (txn', None) => (txn', snd st)
               end) (txn, errs) keys in
    ((txn', errors_Join (Some <$> errs')), errs')) []).

(** [InsertExclusive], badger.go:29: the error of the check read is
    dropped ([existing, _ := txn.Get(key)]); only the item is looked at. *)
Definition InsertExclusive (db : DB) (key value : bytes) : DB * option Error :=
  fst (Badger.Update db (fun txn (_ : unit) =>
    match Badger.Get txn key with
    | inl existing => ((txn, Some ErrKeyExists), tt)
    | inr _ => (Badger.Set_ txn key value, tt)
    end) tt).

(** [Insert], badger.go:38 *)
Definition Insert (db : DB) (key value : bytes) : DB * option Error :=
  fst (Badger.Update db (fun txn (_ : unit) => (Badger.Set_ txn key value, tt)) tt).

(** The loop of [InsertBulk]: [entries[i]], [entries[i+1]] for
    [i = 0, 2, ...].  An odd number of entries makes [entries[i+1]] an
    index out of range, a run-time panic ([None]). *)
Fixpoint insertPairs (txn : Txn) (errs : list (option Error)) (l : list bytes)
  : option (Txn * list (option Error)) :=
  match l with
  | [] => Some (txn, errs)
  | [_] => None
  | key :: value :: rest =>
      let '(txn', err) := Badger.Set_ txn key value in
      insertPairs txn' (errs ++ [err]) rest
  end.

(** [InsertBulk], badger.go:44; [None] is the panic of [insertPairs]. *)
Definition InsertBulk (db : DB) (l : list bytes) : option (DB * option Error) :=
  match insertPairs db [] l with
  | None => None
  | Some (txn', errs) =>
      Some (fst (Badger.Update db (fun _ (_ : unit) => ((txn', errors_Join errs), tt)) tt))
  end.

(** [Get], badger.go:56: a copy of the value, or nil and the error. *)
Definition Get (db : DB) (key : bytes) : bytes * option Error :=
  let '(err, value) :=
    Badger.View db (fun txn (value : bytes) =>
      match Badger.Get txn key with
      | inr err => (Some err, value)
      | inl item => (None, Badger.value item)
      end) [] in
  match err with
  | Some e => ([], Some e)
  | None => (value, None)
  end.

(** [GetList], badger.go:74: the first failing read ends the loop. *)
Definition GetList (db : DB) (keys : list bytes) : list bytes * option Error :=
  let '(err, values) :=
    Badger.View db (fun txn (values : list bytes) =>
      (fix loop (keys : list bytes) (values : list bytes) :=
         match keys with
         | [] => (None, values)
         | key :: keys' =>
             match Badger.Get txn key with
             | inr err => (Some err, values)
             | inl item => loop keys' (values ++ [Badger.value item])
             end
         end) keys values) [] in
  match err with
  | Some e => ([], Some e)
  | None => (values, None)
  end.

(** [UpdateFunc], badger.go:98.  [fn] is a closure: besides its two results
    it may change the variables it captures (of type [S]).  The error it
    returns goes to [item.Value], whose own result is not looked at; the
    transaction function returns what [txn.Set(key, result)] returns. *)
Definition UpdateFunc {S : Type} (db : DB) (key : bytes)
    (fn : bytes -> S -> (bytes * option Error) * S) (s : S)
  : (DB * option Error) * S :=
  Badger.Update db (fun txn s =>
    match Badger.Get txn key with
    | inr err => ((txn, Some err), s)
    | inl item =>
        let '((result, err), s') := fn (Badger.value item) s in
        (Badger.Set_ txn key result, s')
    end) s.

(** [WalkKeys], badger.go:113: every key, the results of [fn] joined. *)
Definition WalkKeys {S : Type} (db : DB)
    (fn : bytes -> S -> option Error * S) (s : S) : option Error * S :=
  let '(_, (errs, s')) :=
    Badger.View db (fun txn (st : list (option Error) * S) =>
      (None, foldl (fun (st : list (option Error) * S) key =>
                      let '(err, s') := fn key (snd st) in
                      (fst st ++ [err], s')) st (Badger.keys txn)))
      ([], s) in
  (errors_Join errs, s').

(** [WalkKeysPrefix], badger.go:130 *)
Definition WalkKeysPrefix {S : Type} (db : DB) (prefix : bytes)
    (fn : bytes -> S -> option Error * S) (s : S) : option Error * S :=
  let '(_, (errs, s')) :=
    Badger.View db (fun txn (st : list (option Error) * S) =>
      (None, foldl (fun (st : list (option Error) * S) key =>
                      let '(err, s') := fn key (snd st) in
                      (fst st ++ [err], s')) st (Badger.keysFrom txn prefix)))
      ([], s) in
  (errors_Join errs, s').

(** ** strconv.ParseUint *)

Module Strconv.

(** [lower(c)]: [c | ('x' - 'X')]. *)
Definition lower (c : Z) : Z := Z.lor c 32.

(** The digit a byte stands for, if any. *)
Definition digit (c : Z) : option Z :=
  if decide (48 <= c <= 57) then Some (c - 48)
  else if decide (97 <= lower c <= 122) then Some (lower c - 97 + 10)
  else None.

(** The loop of [ParseUint] over the bytes of [s], for an explicit base
    (so that an underscore is not a separator). *)
Fixpoint parseLoop (s0 : string) (base cutoff maxVal : Z) (cs : bytes) (n : Z)
  : Z * option Error :=
  match cs with
  | [] => (n, None)
  | c :: cs' =>
      match digit (Binary.Z_of_byte c) with
      | None => (0, Some (ErrSyntax "ParseUint" s0))
      | Some d =>
          if decide (base <= d) then (0, Some (ErrSyntax "ParseUint" s0))
          else if decide (cutoff <= n) then (maxVal, Some (ErrRange "ParseUint" s0))
          else
            let n := Binary.uint64 (n * base) in
            let n1 := Binary.uint64 (n + d) in
            if decide (n1 < n \/ maxVal < n1)
            then (maxVal, Some (ErrRange "ParseUint" s0))
            else parseLoop s0 base cutoff maxVal cs' n1
      end
  end.

(** [ParseUint(s, base, bitSize)] for [2 <= base <= 36] and
    [1 <= bitSize <= 64], the way the handlers call it. *)
Definition ParseUint (s : string) (base bitSize : Z) : Z * option Error :=
  if String.eqb s "" then (0, Some (ErrSyntax "ParseUint" s))
  else
    let cutoff := (2 ^ 64 - 1) / base + 1 in
    let maxVal := 2 ^ bitSize - 1 in
    parseLoop s base cutoff maxVal (list_byte_of_string s) 0.

End Strconv.

(** ** The Bloom record codec *)

Section Codec.
Context `{Externals}.

(** [bloomToBytes]: the two [binary.Write] results are not looked at.
    Writing to a [bytes.Buffer] does not fail, so [filter.WriteTo] returns
    a nil error. *)
Definition bloomToBytes (filter : Bloom.BloomFilter) (capacity errorRate : Z)
  : bytes * option Error :=
  let blob : bytes := [] in
  let blob := blob ++ fst (Binary.Write_uint Binary.LittleEndian capacity) in
  let blob := blob ++ Binary.Write64 Binary.LittleEndian errorRate in
  let blob := blob ++ Bloom.WriteTo filter in
  (blob, None).

(** [bloomFromBytes]: the two [binary.Read] results are not looked at
    either; a variable whose read fails keeps its zero value. *)
Definition bloomFromBytes (blob : bytes)
  : (Bloom.BloomFilter * Z * Z) + Error :=
  let capacity := 0 in
  let errorRate := 0 in
  let reader : Binary.Reader := blob in
  let '((capacity, _), reader) :=
    Binary.Read_uint Binary.LittleEndian reader capacity in
  let '(errorRate, reader) :=
    match Binary.Read64 Binary.LittleEndian reader with
    | (inl v, r) => (v, r)
    | (inr _, r) => (errorRate, r)
    end in
  let filter := Bloom.NewWithEstimates capacity errorRate in
  match Bloom.ReadFrom filter reader with
  | (inr err, _) => inr err
  | (inl filter, _) => inl (filter, capacity, errorRate)
  end.

End Codec.

(** ** Replies (redeo/resp) *)

(** The text of an error reply. *)
Inductive ErrorMsg : Type :=
  | WrongNumberOfArgs (name : string)   (* redeo.WrongNumberOfArgs *)
  | UnknownCommand (name : string)      (* redeo.UnknownCommand *)
  | ErrorText (e : Error)               (* err.Error() *)
  | UnsupportedArgs (args : list bytes).
      (* "unsupported number of arguments: %v" *)

(** What a handler appends to its [resp.ResponseWriter]. *)
Inductive Append : Type :=
  | AppendError (msg : ErrorMsg)
  | AppendInt (n : Z)
  | AppendOK
  | AppendInline (s : string)
  | AppendBulk (b : bytes)
  | AppendNil
  | AppendArrayLen (n : Z).

(** [resp.Command] *)
Record Command := mkCommand { Name : string; Args : list bytes }.

Definition ArgN (c : Command) : nat := List.length (Args c).

(** [c.Arg(n)]: nil when there is no such argument. *)
Definition Arg (c : Command) (n : nat) : bytes := nth n (Args c) [].

(** The number of values a frame announces after itself. *)
Definition arity (a : Append) : nat :=
  match a with
  | AppendArrayLen n => Z.to_nat n
  | _ => 0%nat
  end.

(** Reading the appended frames as RESP values: [owed] values are still
    needed to finish the current top-level value, [done] are finished. *)
Fixpoint countReplies (owed done : nat) (out : list Append) : option nat :=
  match out with
  | [] => if decide (owed = 0%nat) then Some done else None
  | a :: out' =>
      let owed' := (Nat.pred owed + arity a)%nat in
      countReplies owed' (if decide (owed' = 0%nat) then S done else done) out'
  end.

(** The number of complete replies a handler has sent to the client. *)
Definition replies (out : list Append) : option nat := countReplies 0 0 out.

Definition isError (a : Append) : bool :=
  match a with AppendError _ => true | _ => false end.

(** The float64 constant [0.01], as its bit pattern. *)
Definition float64_0_01 : Z := 0x3F847AE147AE147B.

(** ** The handlers of [RedisServer]

    A handler takes the command and the store and returns the store
    afterwards and the frames it appended to the writer, in order. *)

Definition Handler : Type := Command -> DB -> DB * list Append.

Section Handlers.
Context `{Externals}.

Definition wrongArgs (c : Command) : list Append :=
  [AppendError (WrongNumberOfArgs (Name c))].

(** [c.Arg(i).String() != lo && c.Arg(i).String() != up] *)
Definition notToken (a : bytes) (lo up : string) : bool :=
  negb (String.eqb (str a) lo) && negb (String.eqb (str a) up).

(** The [switch c.ArgN()] of [BfInsert]: either the handler has returned
    with the frames on the right, or it goes on past the switch with the
    frames appended so far, the capacity and the error rate. *)
Definition BfInsert_switch (c : Command)
  : (list Append * Z * Z) + list Append :=
  let capacity := 0 in
  let errorRate := 0 in
  match ArgN c with
  | 1%nat => inl ([], 1000000, float64_0_01)
  | 2%nat => inr (wrongArgs c)
  | 3%nat =>
      if notToken (Arg c 1) "capacity" "CAPACITY" then inr (wrongArgs c)
      else
        match Strconv.ParseUint (str (Arg c 2)) 10 32 with
        | (_, Some err) => inr [AppendError (ErrorText err)]
        | (capacity, None) => inl ([], capacity, errorRate)
        end
  | 4%nat => inr (wrongArgs c)
  | 6%nat | 5%nat =>
      let '(capacity, err) := Strconv.ParseUint (str (Arg c 2)) 10 32 in
      if notToken (Arg c 1) "capacity" "CAPACITY" then inr (wrongArgs c)
      else
        let '(capacity, err) := Strconv.ParseUint (str (Arg c 2)) 10 32 in
        match err with
        | Some err => inr [AppendError (ErrorText err)]
        | None =>
            if notToken (Arg c 3) "error" "ERROR" then inr (wrongArgs c)
            else
              match ParseFloat32 (str (Arg c 4)) with
              | (_, Some err) => inr [AppendError (ErrorText err)]
              | (errorRate, None) => inl ([], capacity, errorRate)
              end
        end
  | _ =>
      (* no return after the error: the handler goes on *)
      inl ([AppendError (UnsupportedArgs (Args c))], capacity, errorRate)
  end.

(** [BfInsert] *)
Definition BfInsert : Handler := fun c db =>
  if decide (ArgN c < 1)%nat then (db, wrongArgs c)
  else
    match BfInsert_switch c with
    | inr w => (db, w)
    | inl (w, capacity, errorRate) =>
        let filter := Bloom.NewWithEstimates capacity errorRate in
        match bloomToBytes filter capacity errorRate with
        | (_, Some err) => (db, w ++ [AppendError (ErrorText err)])
        | (blob, None) =>
            match InsertExclusive db (Arg c 0) blob with
            | (db', Some err) => (db', w ++ [AppendError (ErrorText err)])
            | (db', None) => (db', w ++ [AppendArrayLen 1; AppendInt 1])
            end
        end
    end.

(** The closure [BfAdd] hands to [UpdateFunc]; it captures [added]. *)
Definition BfAdd_fn (member : bytes) (value : bytes) (added : bool)
  : (bytes * option Error) * bool :=
  match bloomFromBytes value with
  | inr err => (([], Some err), added)
  | inl (filter, capacity, errRate) =>
      let '(present, filter) := Bloom.TestOrAdd filter member in
      let added := present in
      match bloomToBytes filter capacity errRate with
      | (_, Some err) => (([], Some err), added)
      | (result, None) => ((result, None), added)
      end
  end.

(** [BfAdd] *)
Definition BfAdd : Handler := fun c db =>
  if decide (ArgN c <> 2%nat) then (db, wrongArgs c)
  else
    let added := false in
    match UpdateFunc db (Arg c 0) (BfAdd_fn (Arg c 1)) added with
    | ((db', Some err), _) => (db', [AppendError (ErrorText err)])
    | ((db', None), added) =>
        if added then (db', [AppendInt 1]) else (db', [AppendInt 0])
    end.

(** [BfCard]: the error of [Get] is overwritten by the one of
    [bloomFromBytes] before it is looked at. *)
Definition BfCard : Handler := fun c db =>
  if decide (ArgN c <> 1%nat) then (db, wrongArgs c)
  else
    let '(value, err) := Get db (Arg c 0) in
    match bloomFromBytes value with
    | inr err => (db, [AppendError (ErrorText err)])
    | inl (filter, _, _) => (db, [AppendInt (Bloom.ApproximatedSize filter)])
    end.

(** [BfExists] *)
Definition BfExists : Handler := fun c db =>
  if decide (ArgN c <> 2%nat) then (db, wrongArgs c)
  else
    match Get db (Arg c 0) with
    | (_, Some err) => (db, [AppendError (ErrorText err)])
    | (value, None) =>
        match bloomFromBytes value with
        | inr err => (db, [AppendError (ErrorText err)])
        | inl (filter, _, _) =>
            if Bloom.Test filter (Arg c 1) then (db, [AppendInt 1])
            else (db, [AppendInt 0])
        end
    end.

(** The [switch c.ArgN()] of [CfInsert]: the capacity, or the frames the
    handler returned with. *)
Definition CfInsert_switch (c : Command) : Z + list Append :=
  let capacity := 0 in
  match ArgN c with
  | 1%nat => inl 1000000
  | 2%nat => inr (wrongArgs c)
  | 3%nat =>
      if notToken (Arg c 1) "capacity" "CAPACITY" then inr (wrongArgs c)
      else
        match Strconv.ParseUint (str (Arg c 2)) 10 32 with
        | (_, Some err) => inr [AppendError (ErrorText err)]
        | (capacity, None) => inl capacity
        end
  | _ => inl capacity
  end.

(** [CfInsert] *)
Definition CfInsert : Handler := fun c db =>
  if decide (ArgN c < 1 \/ 3 < ArgN c)%nat then (db, wrongArgs c)
  else
    match CfInsert_switch c with
    | inr w => (db, w)
    | inl capacity =>
        let filter := Cuckoo.NewFilter capacity in
        match InsertExclusive db (Arg c 0) (Cuckoo.Encode filter) with
        | (db', Some err) => (db', [AppendError (ErrorText err)])
        | (db', None) => (db', [AppendOK])
        end
    end.

(** [CfCard]: as in [BfCard], the error of [Get] is overwritten. *)
Definition CfCard : Handler := fun c db =>
  if decide (ArgN c <> 1%nat) then (db, wrongArgs c)
  else
    let '(value, err) := Get db (Arg c 0) in
    match Cuckoo.Decode value with
    | inr err => (db, [AppendError (ErrorText err)])
    | inl filter => (db, [AppendInt (Cuckoo.Count filter)])
    end.

(** The closure [CfAdd] hands to [UpdateFunc]. *)
Definition CfAdd_fn (member : bytes) (value : bytes) (added : bool)
  : (bytes * option Error) * bool :=
  match Cuckoo.Decode value with
  | inr err => (([], Some err), added)
  | inl filter =>
      let '(added, filter) := InsertUnique filter member in
      ((Cuckoo.Encode filter, None), added)
  end.

(** [CfAdd] *)
Definition CfAdd : Handler := fun c db =>
  if decide (ArgN c <> 2%nat) then (db, wrongArgs c)
  else
    let added := false in
    match UpdateFunc db (Arg c 0) (CfAdd_fn (Arg c 1)) added with
    | ((db', Some err), _) => (db', [AppendError (ErrorText err)])
    | ((db', None), added) =>
        if added then (db', [AppendInt 1]) else (db', [AppendInt 0])
    end.

(** [CfExists] *)
Definition CfExists : Handler := fun c db =>
  if decide (ArgN c <> 2%nat) then (db, wrongArgs c)
  else
    match Get db (Arg c 0) with
    | (_, Some err) => (db, [AppendError (ErrorText err)])
    | (value, None) =>
        match Cuckoo.Decode value with
        | inr err => (db, [AppendError (ErrorText err)])
        | inl filter =>
            if Lookup filter (Arg c 1) then (db, [AppendInt 1])
            else (db, [AppendInt 0])
        end
    end.

End Handlers.

(** ** The server built by [run] *)

Section Run.
Context `{Externals}.

(** The handler registered for [del]. *)
Definition handleDel : Handler := fun c db =>
  if decide (ArgN c < 1)%nat then (db, wrongArgs c)
  else
    let keys := Args c in
    match DeleteBulk db keys with
    | (db', Some err) => (db', [AppendError (ErrorText err)])
    | (db', None) => (db', [AppendInt (Z.of_nat (List.length keys))])
    end.

(** The handler registered for [set]. *)
Definition handleSet : Handler := fun c db =>
  if decide (ArgN c <> 2%nat) then (db, wrongArgs c)
  else
    match Insert db (Arg c 0) (Arg c 1) with
    | (db', Some err) => (db', [AppendError (ErrorText err)])
    | (db', None) => (db', [AppendOK])
    end.

(** The handler registered for [mset].  The guard leaves an even number
    of entries, so [InsertBulk] does not panic; a panic would end the
    handler with nothing appended. *)
Definition handleMset : Handler := fun c db =>
  if decide (ArgN c < 2 \/ ArgN c mod 2 <> 0)%nat then (db, wrongArgs c)
  else
    match InsertBulk db (Args c) with
    | None => (db, [])
    | Some (db', Some err) => (db', [AppendError (ErrorText err)])
    | Some (db', None) => (db', [AppendOK])
    end.

(** The handler registered for [get]: any error is answered with nil. *)
Definition handleGet : Handler := fun c db =>
  if decide (ArgN c <> 1%nat) then (db, wrongArgs c)
  else
    match Get db (Arg c 0) with
    | (val, None) => (db, [AppendBulk val])
    | (_, Some _) => (db, [AppendNil])
    end.

(** The handler registered for [mget]. *)
Definition handleMget : Handler := fun c db =>
  if decide (ArgN c < 2)%nat then (db, wrongArgs c)
  else
    match GetList db (Args c) with
    | (_, Some err) => (db, [AppendError (ErrorText err)])
    | (values, None) =>
        (db, AppendArrayLen (Z.of_nat (List.length values))
             :: map AppendBulk values)
    end.

(** The handler registered for [keys]; the walk callbacks append to the
    captured [keys] and return nil. *)
Definition handleKeys : Handler := fun c db =>
  if decide (1 < ArgN c)%nat then (db, wrongArgs c)
  else
    let collect := fun (key : bytes) (keys : list bytes) =>
                     (@None Error, keys ++ [key]) in
    let '(err, keys) :=
      match ArgN c with
      | 0%nat => WalkKeys db collect []
      | 1%nat => WalkKeysPrefix db (Arg c 0) collect []
      | _ => (None, [])
      end in
    match err with
    | Some err => (db, [AppendError (ErrorText err)])
    | None =>
        (db, AppendArrayLen (Z.of_nat (List.length keys)) :: map AppendBulk keys)
    end.

(** [redeo.Ping()] *)
Definition Ping : Handler := fun c db =>
  match ArgN c with
  | 0%nat => (db, [AppendInline "PONG"])
  | 1%nat => (db, [AppendBulk (Arg c 0)])
  | _ => (db, wrongArgs c)
  end.

(** [redeo.Echo()] *)
Definition Echo : Handler := fun c db =>
  match ArgN c with
  | 1%nat => (db, [AppendBulk (Arg c 0)])
  | _ => (db, wrongArgs c)
  end.

(** [redeo.Info(srv)] *)
Definition Info : Handler := fun c db => (db, [AppendBulk (serverInfo (Args c))]).

(** The commands registered by [run], in the order of the calls to
    [srv.Handle] and [srv.HandleFunc]. *)
Definition handlers : list (string * Handler) :=
  [ ("ping", Ping); ("echo", Echo); ("info", Info);
    ("bf.insert", BfInsert); ("bf.add", BfAdd);
    ("bf.card", BfCard); ("bf.exists", BfExists);
    ("cf.insert", CfInsert); ("cf.add", CfAdd);
    ("cf.card", CfCard); ("cf.exists", CfExists);
    ("del", handleDel); ("set", handleSet); ("mset", handleMset);
    ("get", handleGet); ("mget", handleMget); ("keys", handleKeys) ]%string.

(** [strings.ToLower] on the ASCII letters (command names are ASCII).  On a
    name with a byte outside ASCII the two differ: [strings.ToLower] decodes
    UTF-8 and maps U+0130 and U+212A to the ASCII letters i and k. *)
Definition ToLower (s : string) : string :=
  string_of_list_byte
    (map (fun b => let c := Binary.Z_of_byte b in
                   if decide (65 <= c <= 90) then Binary.byte_of_Z (c + 32) else b)
         (list_byte_of_string s)).

(** The handler found for a command name: [srv.cmds[strings.ToLower(name)]]. *)
Definition lookupHandler (name : string) : option Handler :=
  snd <$> List.find (fun e => String.eqb (fst e) (ToLower name)) handlers.

(** Serving one command: an unknown name is answered with an error. *)
Definition perform (c : Command) (db : DB) : DB * list Append :=
  match lookupHandler (Name c) with
  | None => (db, [AppendError (UnknownCommand (Name c))])
  | Some h => h c db
  end.

End Run.

(** ** A stand-in for the libraries

    Any [Externals] will do for the properties below; this one is used where
    a property is run on concrete inputs. *)

Definition sumBytes (data : bytes) : Z :=
  foldr (fun b acc => Binary.Z_of_byte b + acc) 0 data.

Definition testExternals : Externals := {|
  baseHashes := fun data =>
    (sumBytes data, Z.of_nat (List.length data), 7 * sumBytes data + 1, 13);
  EstimateParameters := fun n _ => (10 * n, 3);
  approximatedSize := fun count _ k => count / k;
  ParseFloat32 := fun s =>
    if String.eqb s "0.01" then (float64_0_01, None)
    else (0, Some (ErrSyntax "ParseFloat" s));
  InsertUnique := fun cf _ => (false, cf);
  Lookup := fun _ _ => false;
  serverInfo := fun _ => []
|}.

(** A store with no faults, and one whose reads of [bad] fail. *)
Definition emptyDB : DB :=
  Badger.mkDB ∅ (fun _ => None) (fun _ _ => None) (fun _ => None).

Definition storeOf (l : list (bytes * bytes)) : DB :=
  Badger.mkDB (list_to_map l) (fun _ => None) (fun _ _ => None) (fun _ => None).

Definition faultyReads (bad : bytes) (e : Error) (db : DB) : DB :=
  Badger.mkDB (entries db)
              (fun key => if decide (key = bad) then Some e else Badger.readFault db key)
              (Badger.setFault db) (Badger.deleteFault db).

(** ** Filters built by the command layer *)

(** The invariant of a bit set: a [uint] length, the words that hold it,
    each a [uint64]. *)
Definition wf_bitset (b : Bitset.BitSet) : Prop :=
  0 <= Bitset.length b < 2 ^ 64
  /\ List.length (Bitset.set b) = Bitset.wordsNeeded (Bitset.length b)
  /\ Forall (fun w => 0 <= w < 2 ^ 64) (Bitset.set b).

(** The invariant of a Bloom filter: [m >= 1] and [k] are [uint] values
    over a well-formed bit set. *)
Definition wf_bloom (f : Bloom.BloomFilter) : Prop :=
  1 <= Bloom.m f < 2 ^ 64 /\ 0 <= Bloom.k f < 2 ^ 64 /\ wf_bitset (Bloom.b f).

(** The Bloom filters the handlers build for a capacity and an error rate:
    [BfInsert] makes one with [NewWithEstimates], [BfAdd] adds members with
    [TestOrAdd]. *)
Inductive constructed `{Externals} (capacity errorRate : Z)
  : Bloom.BloomFilter -> Prop :=
  | constructed_new :
      constructed capacity errorRate (Bloom.NewWithEstimates capacity errorRate)
  | constructed_add f data :
      constructed capacity errorRate f ->
      constructed capacity errorRate (snd (Bloom.TestOrAdd f data)).

(** The filter commands that read or change an existing record. *)
Definition filterCommands : list string :=
  [ "bf.add"; "bf.exists"; "bf.card"; "cf.add"; "cf.exists"; "cf.card" ]%string.

(** The argument list of [InsertBulk] for a sequence of key/value pairs:
    [k1; v1; k2; v2; ...]. *)
Definition flattenPairs (ps : list (bytes * bytes)) : list bytes :=
  flat_map (fun p => [fst p; snd p]) ps.

(** The commands whose handlers make no call that writes. *)
Definition readCommands : list string :=
  [ "ping"; "echo"; "info"; "bf.card"; "bf.exists"; "cf.card"; "cf.exists";
    "get"; "mget"; "keys" ]%string.

(** An ASCII decimal digit, and the number a string of digits stands for. *)
Definition isDigit (c : byte) : Prop := 48 <= Binary.Z_of_byte c <= 57.

Definition decimalValue (cs : bytes) : Z :=
  foldl (fun n c => n * 10 + (Binary.Z_of_byte c - 48)) 0 cs.

(** The store holds nothing under the empty key. *)
Definition noEmptyKey (db : DB) : Prop := entries db !! ([] : bytes) = None.





(** * Properties *)

(** ** Fixed-width encodings round-trip *)

Section BinaryFacts.
Import Binary.

Lemma Z_of_byte_range b : 0 <= Z_of_byte b < 256.
Proof.
  unfold Z_of_byte. pose proof (Byte.to_N_bounded b). lia.
Qed.

Lemma Z_of_byte_of_Z z : Z_of_byte (byte_of_Z z) = z mod 256.
Proof.
  unfold Z_of_byte, byte_of_Z.
  assert (0 <= z mod 256 < 256) as Hr by (apply Z.mod_pos_bound; lia).
  destruct (Byte.of_N (Z.to_N (z mod 256))) as [y|] eqn:E; simpl.
  - apply Byte.to_of_N in E. rewrite E. lia.
  - apply Byte.of_N_None_iff in E. lia.
Qed.

Lemma byte_of_Z_of_byte b : byte_of_Z (Z_of_byte b) = b.
Proof.
  unfold byte_of_Z. pose proof (Z_of_byte_range b) as Hr.
  rewrite Z.mod_small by lia. unfold Z_of_byte.
  rewrite N2Z.id, Byte.of_to_N. reflexivity.
Qed.

(** The bits of the byte taken at shift [s] and put back at shift [s]. *)
Lemma byte_at_bits v s n :
  0 <= s -> 0 <= n ->
  Z.testbit (Z_of_byte (byte_of_Z (v ≫ s)) ≪ s) n
  = (s <=? n) && (n <? s + 8) && Z.testbit v n.
Proof.
  intros Hs Hn. rewrite Z_of_byte_of_Z, Z.shiftl_spec by lia.
  destruct (Z.leb_spec s n) as [Hle|Hlt]; simpl.
  - change 256 with (2 ^ 8).
    destruct (Z.ltb_spec n (s + 8)) as [Hlo|Hhi]; simpl.
    + rewrite Z.mod_pow2_bits_low by lia.
      rewrite Z.shiftr_spec by lia. f_equal. lia.
    + apply Z.mod_pow2_bits_high. lia.
  - apply Z.testbit_neg_r. lia.
Qed.

Lemma uint64_bits_high v n : 0 <= v < 2 ^ 64 -> 64 <= n -> Z.testbit v n = false.
Proof.
  intros Hv Hn. destruct (decide (v = 0)) as [->|Hne].
  - apply Z.bits_0.
  - apply Z.bits_above_log2; [lia|].
    assert (Z.log2 v < 64); [|lia].
    apply Z.log2_lt_pow2; lia.
Qed.

Lemma Uint64_PutUint64_little v :
  0 <= v < 2 ^ 64 -> Uint64 LittleEndian (PutUint64 LittleEndian v) = v.
Proof.
  intros Hv. unfold Uint64, PutUint64.
  apply Z.bits_inj'. intros n Hn.
  rewrite <- (Z.shiftl_0_r (Z_of_byte (byte_of_Z v))).
  rewrite <- (Z.shiftr_0_r v) at 1.
  rewrite !Z.lor_spec, !byte_at_bits by lia.
  destruct (Z.ltb_spec n 64) as [Hlt|Hge].
  - assert (n < 8 \/ 8 <= n < 16 \/ 16 <= n < 24 \/ 24 <= n < 32 \/
            32 <= n < 40 \/ 40 <= n < 48 \/ 48 <= n < 56 \/ 56 <= n) as Hcase
      by lia.
    repeat destruct Hcase as [Hcase|Hcase];
      repeat match goal with
             | |- context [ (?a <=? ?b) ] => destruct (Z.leb_spec a b); try lia
             | |- context [ (?a <? ?b) ] => destruct (Z.ltb_spec a b); try lia
             end; simpl; rewrite ?orb_false_r; reflexivity.
  - rewrite (uint64_bits_high v n) by lia.
    rewrite !andb_false_r. reflexivity.
Qed.

Lemma Uint64_PutUint64 o v :
  0 <= v < 2 ^ 64 -> Uint64 o (PutUint64 o v) = v.
Proof.
  intros Hv. destruct o.
  - by apply Uint64_PutUint64_little.
  - rewrite <- (Uint64_PutUint64_little v Hv) at 2.
    unfold Uint64, PutUint64. by rewrite rev_involutive.
Qed.

Lemma PutUint64_length o v : List.length (PutUint64 o v) = 8%nat.
Proof. by destruct o. Qed.

(** Reading back what [binary.Write] wrote, whatever follows it. *)
Lemma Read64_Write64 o v rest :
  0 <= v < 2 ^ 64 -> Read64 o (Write64 o v ++ rest) = (inl v, rest).
Proof.
  intros Hv. unfold Read64, ReadFull, Write64.
  pose proof (PutUint64_length o v) as Hlen.
  destruct (PutUint64 o v ++ rest) as [|x l] eqn:E.
  { apply (f_equal List.length) in E. rewrite length_app in E. simpl in E. lia. }
  rewrite <- E. rewrite decide_False by (rewrite length_app; lia).
  rewrite take_app_length' by done. rewrite drop_app_length' by done.
  by rewrite Uint64_PutUint64.
Qed.

End BinaryFacts.

(** ** The bit set and the Bloom filter *)

Section BitsetFacts.

Lemma wordsNeeded_le_64 i :
  0 <= i <= 2 ^ 64 - 64 ->
  Bitset.wordsNeeded i = Z.to_nat ((i + 63) / 64).
Proof.
  intros Hi. unfold Bitset.wordsNeeded, Bitset.Cap, Bitset.wordSize,
    Bitset.log2WordSize.
  rewrite decide_False by lia.
  rewrite Z.shiftr_div_pow2 by lia. reflexivity.
Qed.

Lemma wordsNeeded_top i :
  2 ^ 64 - 64 < i -> Bitset.wordsNeeded i = Z.to_nat (2 ^ 58 - 1).
Proof.
  intros Hi. unfold Bitset.wordsNeeded, Bitset.Cap, Bitset.wordSize,
    Bitset.log2WordSize.
  rewrite decide_True by lia. reflexivity.
Qed.

Lemma wordsNeeded_mono i j :
  0 <= i <= j -> (Bitset.wordsNeeded i <= Bitset.wordsNeeded j)%nat.
Proof.
  intros Hij.
  destruct (Z_le_gt_dec j (2 ^ 64 - 64)) as [Hj|Hj].
  - rewrite !wordsNeeded_le_64 by lia.
    apply Z2Nat.inj_le; [apply Z.div_pos; lia | apply Z.div_pos; lia|].
    apply Z.div_le_mono; lia.
  - rewrite (wordsNeeded_top j) by lia.
    destruct (Z_le_gt_dec i (2 ^ 64 - 64)) as [Hi|Hi].
    + rewrite wordsNeeded_le_64 by lia.
      apply Z2Nat.inj_le; [apply Z.div_pos; lia | lia |].
      assert ((i + 63) / 64 <= (2 ^ 64 - 64 + 63) / 64)
        by (apply Z.div_le_mono; lia).
      change ((2 ^ 64 - 64 + 63) / 64) with (2 ^ 58 - 1) in *. lia.
    + rewrite wordsNeeded_top by lia. lia.
Qed.

Lemma wordsIndex_range i : 0 <= Bitset.wordsIndex i < 64.
Proof.
  unfold Bitset.wordsIndex, Bitset.wordSize.
  change (64 - 1) with (Z.ones 6). rewrite Z.land_ones by lia.
  apply Z.mod_pos_bound. lia.
Qed.

Lemma lor_bit_range w j :
  0 <= w < 2 ^ 64 -> 0 <= j < 64 -> 0 <= Z.lor w (1 ≪ j) < 2 ^ 64.
Proof.
  intros Hw Hj.
  assert (0 <= 1 ≪ j) as Hs by (apply Z.shiftl_nonneg; lia).
  split; [apply Z.lor_nonneg; lia|].
  assert (0 < Z.lor w (1 ≪ j)) as Hpos.
  { assert (Z.lor w (1 ≪ j) <> 0); [|pose proof (proj2 (Z.lor_nonneg w (1 ≪ j)) (conj (proj1 Hw) Hs)); lia].
    intros E. apply Z.lor_eq_0_iff in E as [_ E].
    rewrite Z.shiftl_mul_pow2 in E by lia.
    assert (0 < 2 ^ j) by (apply Z.pow_pos_nonneg; lia). lia. }
  apply Z.log2_lt_pow2; [done|].
  rewrite Z.log2_lor by lia.
  rewrite Z.shiftl_mul_pow2, Z.mul_1_l by lia.
  rewrite Z.log2_pow2 by lia.
  destruct (decide (w = 0)) as [->|Hne]; [simpl; lia|].
  assert (Z.log2 w < 64) by (apply Z.log2_lt_pow2; lia). lia.
Qed.

Lemma wf_bitset_New len : 0 <= len < 2 ^ 64 -> wf_bitset (Bitset.New len).
Proof.
  intros Hl. unfold wf_bitset, Bitset.New; simpl.
  split; [done|]. split; [by rewrite length_replicate|].
  apply Forall_replicate. lia.
Qed.

Lemma wf_bitset_Set b i :
  wf_bitset b -> 0 <= i < 2 ^ 64 - 1 -> wf_bitset (Bitset.Set_ b i).
Proof.
  intros (Hlen & Hwords & Hrange) Hi.
  assert (forall l : list Z, Forall (fun w => 0 <= w < 2 ^ 64) l ->
            Forall (fun w => 0 <= w < 2 ^ 64)
              (alter (fun w => Z.lor w (1 ≪ Bitset.wordsIndex i))
                     (Z.to_nat (i ≫ Bitset.log2WordSize)) l)) as Halter.
  { intros l Hl. apply Forall_alter; [done|].
    intros w _ Hw. apply lor_bit_range; [done | apply wordsIndex_range]. }
  unfold Bitset.Set_. destruct (decide (Bitset.length b <= i)) as [Hext|Hin].
  - unfold wf_bitset, Bitset.extendSet; simpl.
    split; [lia|]. split.
    + rewrite length_alter, length_app, length_replicate, Hwords.
      pose proof (wordsNeeded_mono (Bitset.length b) (i + 1)). lia.
    + apply Halter. apply Forall_app. split; [done|].
      apply Forall_replicate. lia.
  - unfold wf_bitset; simpl. split; [done|]. split.
    + by rewrite length_alter.
    + by apply Halter.
Qed.

Lemma readUint64Array_words ws rest :
  Forall (fun w => 0 <= w < 2 ^ 64) ws ->
  Bitset.readUint64Array (List.length ws)
    (flat_map (Binary.Write64 Binary.BigEndian) ws ++ rest) = (inl ws, rest).
Proof.
  induction 1 as [|w ws Hw _ IH]; [done|].
  cbn [flat_map Bitset.readUint64Array List.length].
  rewrite <- app_assoc, Read64_Write64 by done.
  by rewrite IH.
Qed.

(** The bit set codec round-trips on well-formed sets. *)
Lemma Bitset_ReadFrom_WriteTo b rest :
  wf_bitset b -> Bitset.ReadFrom (Bitset.WriteTo b ++ rest) = (inl b, rest).
Proof.
  intros (Hlen & Hwords & Hrange). unfold Bitset.ReadFrom, Bitset.WriteTo.
  rewrite <- app_assoc, Read64_Write64 by done.
  rewrite take_ge by lia.
  rewrite <- Hwords, readUint64Array_words by done.
  by destruct b.
Qed.

End BitsetFacts.

Section BloomFacts.
Context `{Externals}.

Lemma uint64_range z : 0 <= Binary.uint64 z < 2 ^ 64.
Proof. unfold Binary.uint64, Binary.uint64_modulus. apply Z.mod_pos_bound. lia. Qed.

Lemma uint64_small z : 0 <= z < 2 ^ 64 -> Binary.uint64 z = z.
Proof. intros Hz. unfold Binary.uint64, Binary.uint64_modulus. by apply Z.mod_small. Qed.

(** The filter codec of the library round-trips on well-formed filters,
    whatever filter it is read into. *)
Lemma Bloom_ReadFrom_WriteTo f0 f rest :
  wf_bloom f -> Bloom.ReadFrom f0 (Bloom.WriteTo f ++ rest) = (inl f, rest).
Proof.
  intros (Hm & Hk & Hb). unfold Bloom.ReadFrom, Bloom.WriteTo.
  rewrite !uint64_small by lia.
  rewrite <- !app_assoc, Read64_Write64 by lia.
  rewrite Read64_Write64 by lia.
  rewrite Bitset_ReadFrom_WriteTo by done.
  by destruct f.
Qed.

Lemma wf_bloom_New m k :
  0 <= m < 2 ^ 64 -> 0 <= k < 2 ^ 64 -> wf_bloom (Bloom.New m k).
Proof.
  intros Hm Hk. unfold wf_bloom, Bloom.New; simpl.
  split; [lia|]. split; [lia|]. by apply wf_bitset_New.
Qed.

Lemma wf_bloom_NewWithEstimates n fp : wf_bloom (Bloom.NewWithEstimates n fp).
Proof.
  unfold Bloom.NewWithEstimates. destruct (EstimateParameters n fp) as [m k].
  apply wf_bloom_New; apply uint64_range.
Qed.

Lemma f_location_range f h i :
  1 <= Bloom.m f < 2 ^ 64 -> 0 <= Bloom.f_location f h i < 2 ^ 64 - 1.
Proof.
  intros Hm. unfold Bloom.f_location.
  pose proof (Z.mod_pos_bound (Bloom.location h i) (Bloom.m f)). lia.
Qed.

(** The loop of [TestOrAdd] keeps the bit set well formed. *)
Lemma testOrAdd_loop_wf f h l st :
  1 <= Bloom.m f < 2 ^ 64 -> wf_bitset (snd st) ->
  wf_bitset (snd (foldl (Bloom.testOrAdd_step f h) st l)).
Proof.
  intros Hm. revert st. induction l as [|i l IH]; intros [p bset] Hwf; [done|].
  cbn [foldl]. apply IH. unfold Bloom.testOrAdd_step.
  destruct (Bitset.Test bset _); [done|]. simpl.
  apply wf_bitset_Set; [done|]. by apply f_location_range.
Qed.

Lemma wf_bloom_TestOrAdd f data :
  wf_bloom f -> wf_bloom (snd (Bloom.TestOrAdd f data)).
Proof.
  intros (Hm & Hk & Hb). unfold Bloom.TestOrAdd.
  pose proof (testOrAdd_loop_wf f (baseHashes data) (seqZ 0 (Bloom.k f))
                (true, Bloom.b f) Hm Hb) as Hwf.
  destruct (foldl _ _ _) as [present bset]. cbn [snd] in Hwf.
  unfold wf_bloom. cbn [snd Bloom.m Bloom.k Bloom.b]. auto.
Qed.

(** Every filter the handlers build is well formed. *)
Lemma constructed_wf capacity errorRate f :
  constructed capacity errorRate f -> wf_bloom f.
Proof.
  induction 1.
  - apply wf_bloom_NewWithEstimates.
  - by apply wf_bloom_TestOrAdd.
Qed.

(** Once [present] is false it stays false. *)
Lemma testOrAdd_loop_false f h l bset :
  fst (foldl (Bloom.testOrAdd_step f h) (false, bset) l) = false.
Proof.
  revert bset. induction l as [|i l IH]; intros bset; [done|].
  cbn [foldl]. unfold Bloom.testOrAdd_step at 2.
  destruct (Bitset.Test bset _); apply IH.
Qed.

Lemma testOrAdd_loop_present f h l p bset :
  fst (foldl (Bloom.testOrAdd_step f h) (p, bset) l)
  = p && forallb (fun i => Bitset.Test bset (Bloom.f_location f h i)) l.
Proof.
  revert p bset. induction l as [|i l IH]; intros p bset.
  - simpl. by rewrite andb_true_r.
  - cbn [foldl forallb]. unfold Bloom.testOrAdd_step at 2.
    destruct (Bitset.Test bset _) eqn:E.
    + by rewrite IH.
    + rewrite testOrAdd_loop_false. simpl. by rewrite andb_false_r.
Qed.

(** [TestOrAdd] returns what [Test] returned before the call: true when
    the member was already (possibly) present, false when it was not and
    has just been added. *)
Lemma TestOrAdd_returns_Test f data :
  fst (Bloom.TestOrAdd f data) = Bloom.Test f data.
Proof.
  unfold Bloom.TestOrAdd, Bloom.Test.
  pose proof (testOrAdd_loop_present f (baseHashes data) (seqZ 0 (Bloom.k f))
                true (Bloom.b f)) as Hp.
  destruct (foldl _ _ _) as [present bset]. cbn [fst andb] in Hp. exact Hp.
Qed.

(** What [bloomFromBytes] makes of a record written by [bloomToBytes]. *)
Lemma bloomFromBytes_bloomToBytes f capacity errorRate :
  wf_bloom f -> 0 <= errorRate < 2 ^ 64 ->
  bloomFromBytes (fst (bloomToBytes f capacity errorRate))
  = inl (f, 0, errorRate).
Proof.
  intros Hf He. unfold bloomFromBytes, bloomToBytes, Binary.Read_uint,
    Binary.Write_uint. cbn [fst app].
  rewrite Read64_Write64 by done.
  rewrite <- (app_nil_r (Bloom.WriteTo f)).
  by rewrite Bloom_ReadFrom_WriteTo.
Qed.

End BloomFacts.

(** ** The store facade *)

Section FacadeFacts.

(** A successful read: the key is not empty, its read does not fault and
    the item carries the stored value. *)
Lemma Badger_Get_inl db key item :
  Badger.Get db key = inl item ->
  key <> [] /\ Badger.readFault db key = None
  /\ entries db !! key = Some (Badger.value item).
Proof.
  unfold Badger.Get. destruct (decide (key = [])); [done|].
  destruct (Badger.readFault db key); [done|].
  destruct (entries db !! key) eqn:E; [|done].
  intros [= <-]. done.
Qed.

Lemma Badger_Get_present db key v :
  key <> [] -> Badger.readFault db key = None -> entries db !! key = Some v ->
  Badger.Get db key = inl (Badger.mkItem key v).
Proof.
  intros Hk Hr Hv. unfold Badger.Get.
  rewrite decide_False by done. by rewrite Hr, Hv.
Qed.

Lemma Badger_Get_absent db key :
  entries db !! key = None -> exists e, Badger.Get db key = inr e.
Proof.
  intros Hv. unfold Badger.Get. destruct (decide (key = [])); [eauto|].
  destruct (Badger.readFault db key); [eauto|]. rewrite Hv. eauto.
Qed.

(** [Insert] is the outcome of the write alone. *)
Lemma Insert_eq db key value :
  Insert db key value
  = match Badger.Set_ db key value with
    | (txn, None) => (txn, None)
    | (_, Some e) => (db, Some e)
    end.
Proof.
  unfold Insert, Badger.Update.
  by destruct (Badger.Set_ db key value) as [txn [e|]].
Qed.

Lemma Insert_ok db key value :
  key <> [] -> Badger.setFault db key value = None ->
  Insert db key value
  = (Badger.with_entries db (<[key := value]> (entries db)), None).
Proof.
  intros Hk Hs. rewrite Insert_eq. unfold Badger.Set_.
  rewrite decide_False by done. by rewrite Hs.
Qed.

Lemma InsertExclusive_present db key item value :
  Badger.Get db key = inl item ->
  InsertExclusive db key value = (db, Some ErrKeyExists).
Proof. intros Hg. unfold InsertExclusive, Badger.Update. by rewrite Hg. Qed.

Lemma InsertExclusive_unread db key value e :
  Badger.Get db key = inr e ->
  InsertExclusive db key value = Insert db key value.
Proof.
  intros Hg. rewrite Insert_eq. unfold InsertExclusive, Badger.Update.
  rewrite Hg. by destruct (Badger.Set_ db key value) as [txn [e'|]].
Qed.

Lemma Get_present db key item :
  Badger.Get db key = inl item -> Get db key = (Badger.value item, None).
Proof. intros Hg. unfold Get, Badger.View. by rewrite Hg. Qed.

Lemma Get_failed db key e :
  Badger.Get db key = inr e -> Get db key = ([], Some e).
Proof. intros Hg. unfold Get, Badger.View. by rewrite Hg. Qed.

Lemma UpdateFunc_failed {S : Type} db key e
    (fn : bytes -> S -> (bytes * option Error) * S) s :
  Badger.Get db key = inr e -> UpdateFunc db key fn s = ((db, Some e), s).
Proof. intros Hg. unfold UpdateFunc, Badger.Update. by rewrite Hg. Qed.

(** On a key that reads, [UpdateFunc] is the write of the first result of
    [fn], whatever the second is. *)
Lemma UpdateFunc_present {S : Type} db key item
    (fn : bytes -> S -> (bytes * option Error) * S) s :
  Badger.Get db key = inl item ->
  UpdateFunc db key fn s
  = (Insert db key (fst (fst (fn (Badger.value item) s))),
     snd (fn (Badger.value item) s)).
Proof.
  intros Hg. rewrite Insert_eq. unfold UpdateFunc, Badger.Update.
  rewrite Hg. destruct (fn (Badger.value item) s) as [[result err] s'].
  cbn [fst snd]. by destruct (Badger.Set_ db key result) as [txn [e'|]].
Qed.

End FacadeFacts.

(** C10: [InsertExclusive] looks only at the item of its check read.  When
    that read fails, with whatever error, no item comes back and the call
    goes on to the write exactly as [Insert] does, instead of returning the
    read error; on a key that is not empty and whose write does not fault
    the value is stored and nil is returned, also when the store already
    holds a value under the key. *)
Theorem InsertExclusive_ignores_read_error db key value e :
  Badger.Get db key = inr e ->
  InsertExclusive db key value = Insert db key value
  /\ (key <> [] -> Badger.setFault db key value = None ->
      InsertExclusive db key value
      = (Badger.with_entries db (<[key := value]> (entries db)), None)).
Proof.
  intros Hg. split.
  - by apply InsertExclusive_unread with e.
  - intros Hk Hs. rewrite (InsertExclusive_unread db key value e Hg).
    by apply Insert_ok.
Qed.

Lemma InsertExclusive_ignores_read_error_witness :
  let db := faultyReads (bs "k") (ErrStoreIO 5) (storeOf [(bs "k", bs "old")]) in
  InsertExclusive db (bs "k") (bs "new") = Insert db (bs "k") (bs "new")
  /\ (bs "k" <> [] -> Badger.setFault db (bs "k") (bs "new") = None ->
      InsertExclusive db (bs "k") (bs "new")
      = (Badger.with_entries db (<[bs "k" := bs "new"]> (entries db)), None)).
Proof.
  intros db.
  refine (InsertExclusive_ignores_read_error db (bs "k") (bs "new") (ErrStoreIO 5) _).
  vm_compute. reflexivity.
Defined.

(** C5: once [InsertExclusive(k, v1)] has succeeded on a key whose reads do
    not fault, a second [InsertExclusive(k, v2)] fails with [ErrKeyExists]
    and leaves the store as it was, so [Get(k)] still returns [v1]; [v1] is
    any value, the zero-length one included. *)
Theorem InsertExclusive_twice db k v1 v2 db1 :
  Badger.readFault db k = None ->
  InsertExclusive db k v1 = (db1, None) ->
  InsertExclusive db1 k v2 = (db1, Some ErrKeyExists)
  /\ Get db1 k = (v1, None).
Proof.
  intros Hr H1.
  assert (Badger.Get db1 k = inl (Badger.mkItem k v1)) as Hg.
  { unfold InsertExclusive, Badger.Update in H1.
    destruct (Badger.Get db k) as [item|e]; [done|].
    unfold Badger.Set_ in H1. destruct (decide (k = [])) as [|Hk]; [done|].
    destruct (Badger.setFault db k v1); [done|].
    injection H1 as <-. apply Badger_Get_present; [done|done|].
    simpl. apply lookup_insert_eq. }
  split.
  - by apply InsertExclusive_present with (Badger.mkItem k v1).
  - by rewrite (Get_present _ _ _ Hg).
Qed.

Lemma InsertExclusive_twice_witness :
  InsertExclusive (fst (InsertExclusive emptyDB (bs "k") [])) (bs "k") (bs "v2")
  = (fst (InsertExclusive emptyDB (bs "k") []), Some ErrKeyExists)
  /\ Get (fst (InsertExclusive emptyDB (bs "k") [])) (bs "k") = ([], None).
Proof.
  apply (InsertExclusive_twice emptyDB (bs "k") [] (bs "v2")).
  - reflexivity.
  - reflexivity.
Defined.

(** C9: on a key present in the store, when the function handed to
    [UpdateFunc] returns an error the write is not skipped: the call is the
    write of the result value the function returned with the error, and
    its outcome, store and returned error, is that of [Insert]. *)
Theorem UpdateFunc_writes_despite_error {S : Type} db key item
    (fn : bytes -> S -> (bytes * option Error) * S) s result e s' :
  Badger.Get db key = inl item ->
  fn (Badger.value item) s = ((result, Some e), s') ->
  UpdateFunc db key fn s = (Insert db key result, s').
Proof.
  intros Hg Hfn. rewrite (UpdateFunc_present db key item fn s Hg).
  by rewrite Hfn.
Qed.

Lemma UpdateFunc_writes_despite_error_witness :
  UpdateFunc (storeOf [(bs "k", bs "old")]) (bs "k")
             (fun _ (s : unit) => ((bs "junk", Some EOF), s)) tt
  = (Insert (storeOf [(bs "k", bs "old")]) (bs "k") (bs "junk"), tt).
Proof.
  apply (UpdateFunc_writes_despite_error (storeOf [(bs "k", bs "old")]) (bs "k")
           (Badger.mkItem (bs "k") (bs "old")) _ tt (bs "junk") EOF tt).
  - vm_compute. reflexivity.
  - reflexivity.
Defined.

(** C3: on a key present in the store, an error returned by the function
    handed to [UpdateFunc] is not passed on: the result value that came with
    the error becomes the stored value of the key, the transaction commits
    and nil is returned (the write itself not faulting).  For the closures
    of [BfAdd] and [CfAdd] that result value is nil. *)
Theorem UpdateFunc_swallows_error `{Externals} {S : Type} db key item
    (fn : bytes -> S -> (bytes * option Error) * S) s result e s' :
  Badger.Get db key = inl item ->
  fn (Badger.value item) s = ((result, Some e), s') ->
  Badger.setFault db key result = None ->
  UpdateFunc db key fn s
  = ((Badger.with_entries db (<[key := result]> (entries db)), None), s')
  /\ (forall member value added err,
        snd (fst (BfAdd_fn member value added)) = Some err ->
        fst (fst (BfAdd_fn member value added)) = [])
  /\ (forall member value added err,
        snd (fst (CfAdd_fn member value added)) = Some err ->
        fst (fst (CfAdd_fn member value added)) = []).
Proof.
  intros Hg Hfn Hs. split; [|split].
  - rewrite (UpdateFunc_present db key item fn s Hg), Hfn. cbn [fst snd].
    rewrite Insert_ok; [done| |done].
    by destruct (Badger_Get_inl db key item Hg).
  - intros member value added err. unfold BfAdd_fn.
    destruct (bloomFromBytes value) as [[[filter capacity] errRate]|err']; [|done].
    destruct (Bloom.TestOrAdd filter member) as [present filter'].
    unfold bloomToBytes. done.
  - intros member value added err. unfold CfAdd_fn.
    destruct (Cuckoo.Decode value) as [filter|err']; [|done].
    by destruct (InsertUnique filter member).
Qed.

Lemma UpdateFunc_swallows_error_witness :
  let db := storeOf [(bs "k", bs "not a filter")] in
  UpdateFunc db (bs "k") (BfAdd_fn (H := testExternals) (bs "member")) false
  = ((Badger.with_entries db (<[bs "k" := []]> (entries db)), None), false).
Proof.
  intros db.
  refine (proj1 (UpdateFunc_swallows_error (H := testExternals) db (bs "k")
                   (Badger.mkItem (bs "k") (bs "not a filter"))
                   (BfAdd_fn (H := testExternals) (bs "member")) false
                   [] ErrUnexpectedEOF false _ _ _)).
  - vm_compute. reflexivity.
  - vm_compute. reflexivity.
  - reflexivity.
Defined.

(** ** The handlers *)

Section HandlerFacts.
Context `{Externals}.

Lemma bloomFromBytes_nil : bloomFromBytes [] = inr EOF.
Proof. reflexivity. Qed.

Lemma Cuckoo_Decode_nil : Cuckoo.Decode [] = inr ErrCuckooEmpty.
Proof. reflexivity. Qed.

Lemma BfAdd_absent c db e :
  Badger.Get db (Arg c 0) = inr e -> exists msg, BfAdd c db = (db, [AppendError msg]).
Proof.
  intros Hg. unfold BfAdd. destruct (decide (ArgN c <> 2%nat)); [by eexists|].
  rewrite (UpdateFunc_failed _ _ e) by done. by eexists.
Qed.

Lemma BfExists_absent c db e :
  Badger.Get db (Arg c 0) = inr e -> exists msg, BfExists c db = (db, [AppendError msg]).
Proof.
  intros Hg. unfold BfExists. destruct (decide (ArgN c <> 2%nat)); [by eexists|].
  rewrite (Get_failed _ _ e) by done. by eexists.
Qed.

Lemma BfCard_absent c db e :
  Badger.Get db (Arg c 0) = inr e -> exists msg, BfCard c db = (db, [AppendError msg]).
Proof.
  intros Hg. unfold BfCard. destruct (decide (ArgN c <> 1%nat)); [by eexists|].
  rewrite (Get_failed _ _ e) by done. rewrite bloomFromBytes_nil. by eexists.
Qed.

Lemma CfAdd_absent c db e :
  Badger.Get db (Arg c 0) = inr e -> exists msg, CfAdd c db = (db, [AppendError msg]).
Proof.
  intros Hg. unfold CfAdd. destruct (decide (ArgN c <> 2%nat)); [by eexists|].
  rewrite (UpdateFunc_failed _ _ e) by done. by eexists.
Qed.

Lemma CfExists_absent c db e :
  Badger.Get db (Arg c 0) = inr e -> exists msg, CfExists c db = (db, [AppendError msg]).
Proof.
  intros Hg. unfold CfExists. destruct (decide (ArgN c <> 2%nat)); [by eexists|].
  rewrite (Get_failed _ _ e) by done. by eexists.
Qed.

Lemma CfCard_absent c db e :
  Badger.Get db (Arg c 0) = inr e -> exists msg, CfCard c db = (db, [AppendError msg]).
Proof.
  intros Hg. unfold CfCard. destruct (decide (ArgN c <> 1%nat)); [by eexists|].
  rewrite (Get_failed _ _ e) by done. rewrite Cuckoo_Decode_nil. by eexists.
Qed.

(** The handler behind a registered name. *)
Lemma perform_registered c db name h :
  ToLower (Name c) = name ->
  List.find (fun e : string * Handler => String.eqb (fst e) name) handlers
  = Some (name, h) ->
  perform c db = h c db.
Proof.
  intros Hn Hf. unfold perform, lookupHandler. by rewrite Hn, Hf.
Qed.

End HandlerFacts.

(** C4: a filter query or mutation ([BF.ADD], [BF.EXISTS], [BF.CARD],
    [CF.ADD], [CF.EXISTS], [CF.CARD]) whose key is absent from the store is
    answered with one error reply, and the store is left as it was: no
    integer is replied and no filter is created. *)
Theorem filter_command_on_absent_key `{Externals} c db :
  In (ToLower (Name c)) filterCommands ->
  entries db !! Arg c 0 = None ->
  exists msg, perform c db = (db, [AppendError msg]).
Proof.
  intros Hname Habs.
  destruct (Badger_Get_absent db (Arg c 0) Habs) as [e Hg].
  unfold filterCommands in Hname. simpl in Hname.
  destruct Hname as [Hn|[Hn|[Hn|[Hn|[Hn|[Hn|[]]]]]]]; symmetry in Hn.
  - rewrite (perform_registered c db _ BfAdd Hn eq_refl). by apply BfAdd_absent with e.
  - rewrite (perform_registered c db _ BfExists Hn eq_refl). by apply BfExists_absent with e.
  - rewrite (perform_registered c db _ BfCard Hn eq_refl). by apply BfCard_absent with e.
  - rewrite (perform_registered c db _ CfAdd Hn eq_refl). by apply CfAdd_absent with e.
  - rewrite (perform_registered c db _ CfExists Hn eq_refl). by apply CfExists_absent with e.
  - rewrite (perform_registered c db _ CfCard Hn eq_refl). by apply CfCard_absent with e.
Qed.

Lemma filter_command_on_absent_key_witness :
  exists msg,
    perform (H := testExternals) (mkCommand "BF.CARD" [bs "nokey"]) emptyDB
    = (emptyDB, [AppendError msg]).
Proof.
  apply (filter_command_on_absent_key (H := testExternals)
           (mkCommand "BF.CARD" [bs "nokey"]) emptyDB).
  - vm_compute. auto.
  - reflexivity.
Defined.

(** C1 (as the code has it): on a stored Bloom record, [BF.ADD key member]
    writes back the filter with the member added and replies with what
    [TestOrAdd] returned, the result of the membership test made before the
    add: integer 1 when the member was already (possibly) present and
    integer 0 when it has just been added. *)
Theorem BfAdd_replies_prior_membership `{Externals}
    c db key member f capacity errorRate :
  Args c = [key; member] ->
  wf_bloom f -> 0 <= errorRate < 2 ^ 64 ->
  Badger.Get db key
  = inl (Badger.mkItem key (fst (bloomToBytes f capacity errorRate))) ->
  (forall v, Badger.setFault db key v = None) ->
  BfAdd c db
  = (Badger.with_entries db
       (<[key := fst (bloomToBytes (snd (Bloom.TestOrAdd f member)) 0 errorRate)]>
          (entries db)),
     [AppendInt (if Bloom.Test f member then 1 else 0)]).
Proof.
  intros Hargs Hf He Hg Hs.
  destruct (Badger_Get_inl _ _ _ Hg) as (Hk & _ & _).
  unfold BfAdd, ArgN, Arg. rewrite Hargs. cbn [List.length nth].
  rewrite decide_False by (intros Hn; by apply Hn).
  rewrite (UpdateFunc_present db key _ _ _ Hg). cbn [Badger.value].
  unfold BfAdd_fn. rewrite bloomFromBytes_bloomToBytes by done.
  rewrite <- (TestOrAdd_returns_Test f member).
  destruct (Bloom.TestOrAdd f member) as [present f'].
  unfold bloomToBytes at 1 2. cbn [fst snd].
  rewrite Insert_ok by done.
  by destruct present.
Qed.

Lemma BfAdd_replies_prior_membership_witness :
  let f := Bloom.NewWithEstimates (H := testExternals) 10 0 in
  let db := storeOf [(bs "k", fst (bloomToBytes f 10 0))] in
  Bloom.Test (H := testExternals) f (bs "a") = false
  /\ snd (BfAdd (H := testExternals) (mkCommand "bf.add" [bs "k"; bs "a"]) db)
     = [AppendInt 0].
Proof.
  intros f db. split; [vm_compute; reflexivity|].
  rewrite (BfAdd_replies_prior_membership (H := testExternals)
             (mkCommand "bf.add" [bs "k"; bs "a"]) db (bs "k") (bs "a") f 10 0).
  - vm_compute. reflexivity.
  - reflexivity.
  - apply wf_bloom_NewWithEstimates.
  - lia.
  - vm_compute. reflexivity.
  - reflexivity.
Defined.

(** C2 (as the code has it): for a filter built by the handlers,
    [bloomFromBytes] after [bloomToBytes] gives back the same filter (so the
    same answers to membership and cardinality queries) and the same error
    rate, and capacity 0 whatever capacity was passed in: a [uint] is not
    among the fixed-size types [binary.Write] and [binary.Read] accept, so
    the capacity is neither written nor read. *)
Theorem bloom_record_round_trip `{Externals} capacity errorRate f :
  constructed capacity errorRate f ->
  0 <= errorRate < 2 ^ 64 ->
  bloomFromBytes (fst (bloomToBytes f capacity errorRate))
  = inl (f, 0, errorRate).
Proof.
  intros Hc He. apply bloomFromBytes_bloomToBytes; [|done].
  by apply constructed_wf with capacity errorRate.
Qed.

Lemma bloom_record_round_trip_witness :
  bloomFromBytes (H := testExternals)
    (fst (bloomToBytes
            (snd (Bloom.TestOrAdd (H := testExternals)
                    (Bloom.NewWithEstimates (H := testExternals) 50000 float64_0_01)
                    (bs "+13164647972")))
            50000 float64_0_01))
  = inl (snd (Bloom.TestOrAdd (H := testExternals)
                (Bloom.NewWithEstimates (H := testExternals) 50000 float64_0_01)
                (bs "+13164647972")),
         0, float64_0_01).
Proof.
  apply (bloom_record_round_trip (H := testExternals) 50000 float64_0_01).
  - apply constructed_add, constructed_new.
  - unfold float64_0_01. lia.
Defined.

(** C6 (as the code has it): [BF.INSERT] with seven or more arguments
    appends the unsupported-number-of-arguments error and, there being no
    return after it, goes on to create the record: the client is sent the
    error and then either the array reply of a successful insert or a second
    error, two replies in all. *)
Theorem BfInsert_unsupported_args_replies_twice `{Externals} c db :
  (7 <= ArgN c)%nat ->
  exists rest,
    snd (BfInsert c db) = AppendError (UnsupportedArgs (Args c)) :: rest
    /\ (rest = [AppendArrayLen 1; AppendInt 1]
        \/ exists e, rest = [AppendError (ErrorText e)])
    /\ replies (snd (BfInsert c db)) = Some 2%nat.
Proof.
  intros Hn. unfold BfInsert. rewrite decide_False by lia.
  unfold BfInsert_switch.
  destruct (ArgN c) as [|[|[|[|[|[|[|n]]]]]]]; try lia.
  unfold bloomToBytes. cbn [fst snd app].
  destruct (InsertExclusive db (Arg c 0) _) as [db' [e|]]; cbn [snd app].
  - eexists. split; [reflexivity|]. split; [right; by eexists | reflexivity].
  - eexists. split; [reflexivity|]. split; [by left | reflexivity].
Qed.

Lemma BfInsert_unsupported_args_replies_twice_witness :
  let c := mkCommand "bf.insert"
             [bs "k"; bs "a"; bs "b"; bs "c"; bs "d"; bs "e"; bs "f"] in
  exists rest,
    snd (BfInsert (H := testExternals) c emptyDB)
    = AppendError (UnsupportedArgs (Args c)) :: rest
    /\ (rest = [AppendArrayLen 1; AppendInt 1]
        \/ exists e, rest = [AppendError (ErrorText e)])
    /\ replies (snd (BfInsert (H := testExternals) c emptyDB)) = Some 2%nat.
Proof.
  intros c.
  apply (BfInsert_unsupported_args_replies_twice (H := testExternals) c emptyDB).
  vm_compute. lia.
Defined.

(** The frames sent for seven arguments on an empty store, and for the same
    command again (the key now exists). *)
Example BfInsert_seven_args_output :
  let c := mkCommand "bf.insert"
             [bs "k"; bs "a"; bs "b"; bs "c"; bs "d"; bs "e"; bs "f"] in
  snd (BfInsert (H := testExternals) c emptyDB)
  = [AppendError (UnsupportedArgs (Args c)); AppendArrayLen 1; AppendInt 1]
  /\ snd (BfInsert (H := testExternals) c
            (fst (BfInsert (H := testExternals) c emptyDB)))
     = [AppendError (UnsupportedArgs (Args c));
        AppendError (ErrorText ErrKeyExists)].
Proof. split; vm_compute; reflexivity. Qed.

(** C7 (as the code has it): [run] registers no handler under [cf.del], so
    a [CF.DEL] command, in any letter case, is answered with the
    unknown-command error and leaves the store as it was. *)
Theorem cf_del_is_unknown `{Externals} c db :
  ToLower (Name c) = "cf.del"%string ->
  perform c db = (db, [AppendError (UnknownCommand (Name c))]).
Proof.
  intros Hn. unfold perform, lookupHandler. by rewrite Hn.
Qed.

Lemma cf_del_is_unknown_witness :
  perform (H := testExternals)
    (mkCommand "CF.DEL" [bs "cuckoo"; bs "+353873549906"]) emptyDB
  = (emptyDB, [AppendError (UnknownCommand "CF.DEL")]).
Proof.
  apply (cf_del_is_unknown (H := testExternals)
           (mkCommand "CF.DEL" [bs "cuckoo"; bs "+353873549906"]) emptyDB).
  vm_compute. reflexivity.
Defined.

Section TokenFacts.
Context `{Externals}.









End TokenFacts.




(** ** One reply per command, everywhere else *)

Section ReplyFacts.
Context `{Externals}.





















(** One step down the table of [run]: the command name is the given one,
    or the search goes on. *)
Ltac dispatch c name :=
  destruct (String.eqb name (ToLower (Name c))) eqn:?;
  [cbn [fmap option_fmap option_map snd]|].


End ReplyFacts.

(** ** The swallowed error, seen from the client

    [BF.ADD] on a key that holds a plain value: the record does not decode,
    the closure returns nil and the error, [UpdateFunc] stores the nil and
    returns nil, and the handler replies with integer 0 over a value that
    is now empty. *)
Example BfAdd_on_plain_value :
  let db := fst (perform (H := testExternals)
                   (mkCommand "set" [bs "k"; bs "plain value"]) emptyDB) in
  let '(db', out) := perform (H := testExternals)
                       (mkCommand "bf.add" [bs "k"; bs "member"]) db in
  out = [AppendInt 0] /\ Get db' (bs "k") = ([], None).
Proof. vm_compute. split; reflexivity. Qed.

(** * Further properties of the facade, the codec and the handlers *)

(** ** Point writes, reads and deletes *)

Section PointFacts.

Lemma with_entries_id db : Badger.with_entries db (entries db) = db.
Proof. by destruct db. Qed.

Lemma Insert_inv db key value db' :
  Insert db key value = (db', None) ->
  key <> [] /\ db' = Badger.with_entries db (<[key := value]> (entries db)).
Proof.
  rewrite Insert_eq. unfold Badger.Set_.
  destruct (decide (key = [])); [done|].
  destruct (Badger.setFault db key value); [done|]. by intros [= <-].
Qed.

Lemma Delete_eq db key :
  Delete db key
  = match Badger.Delete db key with
    | (txn, None) => (txn, None)
    | (_, Some e) => (db, Some e)
    end.
Proof.
  unfold Delete, Badger.Update. by destruct (Badger.Delete db key) as [txn [e|]].
Qed.

Lemma Delete_inv db key db' :
  Delete db key = (db', None) ->
  key <> [] /\ db' = Badger.with_entries db (delete key (entries db)).
Proof.
  rewrite Delete_eq. unfold Badger.Delete.
  destruct (decide (key = [])); [done|].
  destruct (Badger.deleteFault db key); [done|]. by intros [= <-].
Qed.

End PointFacts.

(** X1: after a successful [Insert(k, v)], [Get(k)] returns [v] byte for
    byte (reads of [k] not faulting), and [Get] of any other key returns
    what it returned before. *)
Theorem Insert_then_Get db k v db' :
  Insert db k v = (db', None) ->
  Badger.readFault db k = None ->
  Get db' k = (v, None) /\ (forall k', k' <> k -> Get db' k' = Get db k').
Proof.
  intros Hi Hr. destruct (Insert_inv _ _ _ _ Hi) as [Hk ->]. split.
  - rewrite (Get_present _ _ (Badger.mkItem k v)); [done|].
    apply Badger_Get_present; [done|done|]. simpl. apply lookup_insert_eq.
  - intros k' Hne. unfold Get, Badger.View, Badger.Get. simpl.
    by rewrite lookup_insert_ne.
Qed.

Lemma Insert_then_Get_witness :
  Get (fst (Insert emptyDB (bs "asdf") (bs "asdfasdf"))) (bs "asdf")
  = (bs "asdfasdf", None)
  /\ (forall k', k' <> bs "asdf" ->
      Get (fst (Insert emptyDB (bs "asdf") (bs "asdfasdf"))) k' = Get emptyDB k').
Proof.
  apply (Insert_then_Get emptyDB (bs "asdf") (bs "asdfasdf")); reflexivity.
Defined.

(** X2: [Delete] of a key that is not in the store is not an error and
    changes nothing; after any successful [Delete(k)], [Get(k)] fails with
    [ErrKeyNotFound] (reads of [k] not faulting). *)
Theorem Delete_absent_and_Get db k :
  k <> [] -> Badger.deleteFault db k = None -> Badger.readFault db k = None ->
  (entries db !! k = None -> Delete db k = (db, None))
  /\ Get (fst (Delete db k)) k = ([], Some ErrKeyNotFound).
Proof.
  intros Hk Hd Hr.
  assert (Delete db k = (Badger.with_entries db (delete k (entries db)), None))
    as Hdel.
  { rewrite Delete_eq. unfold Badger.Delete.
    rewrite decide_False by done. by rewrite Hd. }
  split.
  - intros Habs. rewrite Hdel, delete_id by done. by rewrite with_entries_id.
  - rewrite Hdel. cbn [fst]. apply Get_failed. unfold Badger.Get.
    rewrite decide_False by done. simpl. by rewrite Hr, lookup_delete_eq.
Qed.

Lemma Delete_absent_and_Get_witness :
  (entries emptyDB !! bs "asdf" = None -> Delete emptyDB (bs "asdf") = (emptyDB, None))
  /\ Get (fst (Delete emptyDB (bs "asdf"))) (bs "asdf") = ([], Some ErrKeyNotFound).
Proof.
  apply (Delete_absent_and_Get emptyDB (bs "asdf")); [discriminate|reflexivity..].
Defined.

(** ** Bulk operations *)

Section BulkFacts.

Lemma Badger_Delete_snd txn db key :
  Badger.deleteFault txn = Badger.deleteFault db ->
  snd (Badger.Delete txn key) = snd (Badger.Delete db key).
Proof.
  intros Hf. unfold Badger.Delete. rewrite Hf.
  destruct (decide (key = [])); [done|].
  by destruct (Badger.deleteFault db key).
Qed.

Lemma Badger_Delete_fst txn key :
  Badger.deleteFault (fst (Badger.Delete txn key)) = Badger.deleteFault txn
  /\ (snd (Badger.Delete txn key) = None ->
      fst (Badger.Delete txn key)
      = Badger.with_entries txn (delete key (entries txn))).
Proof.
  unfold Badger.Delete. destruct (decide (key = [])); [done|].
  by destruct (Badger.deleteFault txn key).
Qed.

(** The loop of [DeleteBulk]: the errors collected are those of the keys,
    one by one, in order. *)
Lemma DeleteBulk_loop_errs db keys : forall txn errs,
  Badger.deleteFault txn = Badger.deleteFault db ->
  snd (foldl (fun (st : Txn * list Error) key =>
                match Badger.Delete (fst st) key with
                | (txn', Some err) => (txn', snd st ++ [err])
                | (txn', None) => (txn', snd st)
                end) (txn, errs) keys)
  = errs ++ omap (fun key => snd (Badger.Delete db key)) keys.
Proof.
  induction keys as [|key keys IH]; intros txn errs Hf.
  - simpl. by rewrite app_nil_r.
  - cbn [foldl fst snd omap list_omap].
    pose proof (Badger_Delete_snd txn db key Hf) as Hs.
    destruct (Badger_Delete_fst txn key) as [Hf' _].
    destruct (Badger.Delete txn key) as [txn' [e|]]; simpl in Hs, Hf';
      rewrite <- Hs; cbn [list_omap].
    + rewrite IH by congruence. by rewrite <- app_assoc.
    + rewrite IH by congruence. done.
Qed.

(** ... and when no key fails the transaction has deleted them all. *)
Lemma DeleteBulk_loop_store keys : forall txn errs,
  Forall (fun key => snd (Badger.Delete txn key) = None) keys ->
  fst (foldl (fun (st : Txn * list Error) key =>
                match Badger.Delete (fst st) key with
                | (txn', Some err) => (txn', snd st ++ [err])
                | (txn', None) => (txn', snd st)
                end) (txn, errs) keys)
  = Badger.with_entries txn (foldl (fun m key => delete key m) (entries txn) keys).
Proof.
  induction keys as [|key keys IH]; intros txn errs Hok.
  - simpl. by rewrite with_entries_id.
  - inversion Hok as [|? ? Hkey Hrest]; subst. cbn [foldl fst snd].
    destruct (Badger_Delete_fst txn key) as [Hf Hst].
    specialize (Hst Hkey).
    destruct (Badger.Delete txn key) as [txn' [e|]]; [done|].
    simpl in Hst, Hf. subst txn'. rewrite IH; [done|].
    eapply Forall_impl; [exact Hrest|]. intros k Hk. simpl in Hk.
    by rewrite (Badger_Delete_snd _ txn k).
Qed.

Lemma omap_nil_Forall {A B} (f : A -> option B) l :
  omap f l = [] -> Forall (fun x => f x = None) l.
Proof.
  induction l as [|x l IH]; [constructor|]. cbn [omap list_omap].
  destruct (f x) eqn:E; [done|]. intros Hl. constructor; auto.
Qed.

Lemma omap_id_Some {A} (l : list A) : omap id (Some <$> l) = l.
Proof. induction l as [|x l IH]; [done|]. simpl. f_equal. exact IH. Qed.

Lemma errors_Join_Some es :
  errors_Join (Some <$> es) = match es with [] => None | _ => Some (ErrJoin es) end.
Proof. unfold errors_Join. rewrite omap_id_Some. by destruct es. Qed.

End BulkFacts.

(** What [DeleteBulk] returns, from the errors of its keys. *)
Lemma DeleteBulk_result db keys :
  DeleteBulk db keys
  = match omap (fun key => snd (Badger.Delete db key)) keys with
    | [] => (Badger.with_entries db
               (foldl (fun m key => delete key m) (entries db) keys), None)
    | es => (db, Some (ErrJoin es))
    end.
Proof.
  unfold DeleteBulk, Badger.Update.
  pose proof (DeleteBulk_loop_errs db keys db [] eq_refl) as Herrs.
  destruct (omap _ keys) as [|e es] eqn:Hom.
  - pose proof (DeleteBulk_loop_store keys db [] (omap_nil_Forall _ _ Hom)) as Hst.
    destruct (foldl _ _ keys) as [txn' errs']. simpl in Herrs, Hst. subst.
    by rewrite errors_Join_Some.
  - destruct (foldl _ _ keys) as [txn' errs']. simpl in Herrs. subst.
    by rewrite errors_Join_Some.
Qed.

(** X3: [DeleteBulk] tries every key.  When no delete fails, all the keys
    are gone and nil is returned; when some fail, nothing is deleted and the
    error returned joins the errors of all the failing keys, in order. *)
Theorem DeleteBulk_all_or_nothing db keys :
  DeleteBulk db keys
  = match omap (fun key => snd (Badger.Delete db key)) keys with
    | [] => (Badger.with_entries db
               (foldl (fun m key => delete key m) (entries db) keys), None)
    | es => (db, Some (ErrJoin es))
    end.
Proof. apply DeleteBulk_result. Qed.

Section InsertBulkFacts.

Lemma Badger_Set_snd txn db key value :
  Badger.setFault txn = Badger.setFault db ->
  snd (Badger.Set_ txn key value) = snd (Badger.Set_ db key value).
Proof.
  intros Hf. unfold Badger.Set_. rewrite Hf.
  destruct (decide (key = [])); [done|].
  by destruct (Badger.setFault db key value).
Qed.

Lemma Badger_Set_fst txn key value :
  Badger.setFault (fst (Badger.Set_ txn key value)) = Badger.setFault txn
  /\ (snd (Badger.Set_ txn key value) = None ->
      fst (Badger.Set_ txn key value)
      = Badger.with_entries txn (<[key := value]> (entries txn))).
Proof.
  unfold Badger.Set_. destruct (decide (key = [])); [done|].
  by destruct (Badger.setFault txn key value).
Qed.

(** The loop of [InsertBulk] on whole pairs: it ends without a panic with
    the result of every [txn.Set], in order. *)
Lemma insertPairs_errs db ps : forall txn errs,
  Badger.setFault txn = Badger.setFault db ->
  exists txn',
    insertPairs txn errs (flattenPairs ps)
    = Some (txn', errs ++ map (fun p => snd (Badger.Set_ db (fst p) (snd p))) ps).
Proof.
  induction ps as [|[key value] ps IH]; intros txn errs Hf.
  - exists txn. simpl. by rewrite app_nil_r.
  - cbn [flattenPairs flat_map fst snd app insertPairs map].
    pose proof (Badger_Set_snd txn db key value Hf) as Hs.
    destruct (Badger_Set_fst txn key value) as [Hf' _].
    destruct (Badger.Set_ txn key value) as [txn1 err]. simpl in Hs, Hf'.
    destruct (IH txn1 (errs ++ [err])) as [txn' Hi]; [congruence|].
    exists txn'. unfold flattenPairs in Hi. rewrite Hi, <- Hs.
    by rewrite <- app_assoc.
Qed.

Lemma insertPairs_store ps : forall txn errs,
  Forall (fun p => snd (Badger.Set_ txn (fst p) (snd p)) = None) ps ->
  exists errs',
    insertPairs txn errs (flattenPairs ps)
    = Some (Badger.with_entries txn
              (foldl (fun m p => <[fst p := snd p]> m) (entries txn) ps), errs').
Proof.
  induction ps as [|[key value] ps IH]; intros txn errs Hok.
  - exists errs. simpl. by rewrite with_entries_id.
  - inversion Hok as [|? ? Hkey Hrest]; subst.
    cbn [flattenPairs flat_map fst snd app insertPairs foldl].
    destruct (Badger_Set_fst txn key value) as [Hf Hst].
    cbn [fst snd] in Hkey. specialize (Hst Hkey).
    destruct (Badger.Set_ txn key value) as [txn1 err]. simpl in Hst, Hf.
    subst txn1.
    destruct (IH (Badger.with_entries txn (<[key := value]> (entries txn)))
                (errs ++ [err])) as [errs' Hi].
    { eapply Forall_impl; [exact Hrest|]. intros p Hp. simpl in Hp.
      by rewrite (Badger_Set_snd _ txn). }
    exists errs'. exact Hi.
Qed.

Lemma insertPairs_odd ps key : forall txn errs,
  insertPairs txn errs (flattenPairs ps ++ [key]) = None.
Proof.
  induction ps as [|[k v] ps IH]; intros txn errs; [done|].
  cbn [flattenPairs flat_map fst snd app insertPairs].
  destruct (Badger.Set_ txn k v) as [txn1 err]. apply IH.
Qed.

Lemma omap_id_all_None (l : list (option Error)) :
  omap id l = [] -> errors_Join l = None.
Proof. intros Hl. unfold errors_Join. by rewrite Hl. Qed.

End InsertBulkFacts.

(** X4: [InsertBulk] on key/value pairs is all or nothing.  When every
    [txn.Set] succeeds, all the pairs are stored (a later pair wins over an
    earlier one with the same key) and nil is returned; when some fail,
    nothing is stored and the error joins the failures.  An odd number of
    entries is a run-time panic. *)
Theorem InsertBulk_all_or_nothing db ps :
  InsertBulk db (flattenPairs ps)
  = Some (match omap (fun p => snd (Badger.Set_ db (fst p) (snd p))) ps with
          | [] => (Badger.with_entries db
                     (foldl (fun m p => <[fst p := snd p]> m) (entries db) ps),
                   None)
          | es => (db, Some (ErrJoin es))
          end)
  /\ (forall key, InsertBulk db (flattenPairs ps ++ [key]) = None).
Proof.
  split.
  - unfold InsertBulk, Badger.Update.
    destruct (insertPairs_errs db ps db [] eq_refl) as [txn' Hi].
    assert (omap id (map (fun p => snd (Badger.Set_ db (fst p) (snd p))) ps)
            = omap (fun p => snd (Badger.Set_ db (fst p) (snd p))) ps) as Hom.
    { clear. induction ps as [|p ps IH]; [done|]. cbn [map omap list_omap id].
      rewrite <- IH. done. }
    destruct (omap (fun p => snd (Badger.Set_ db (fst p) (snd p))) ps)
      as [|e es] eqn:Hes.
    + destruct (insertPairs_store ps db [] (omap_nil_Forall _ _ Hes))
        as [errs' Hst].
      rewrite Hst in Hi. injection Hi as <- ->.
      rewrite Hst. by rewrite (omap_id_all_None _ Hom).
    + rewrite Hi. cbn [app fst]. unfold errors_Join. by rewrite Hom.
  - intros key. unfold InsertBulk. by rewrite insertPairs_odd.
Qed.

Section GetListFacts.

(** The loop of [GetList] when every key reads. *)
Lemma GetList_loop_ok db keys items : forall values,
  Forall2 (fun key item => Badger.Get db key = inl item) keys items ->
  (fix loop (keys : list bytes) (values : list bytes) :=
     match keys with
     | [] => (@None Error, values)
     | key :: keys' =>
         match Badger.Get db key with
         | inr err => (Some err, values)
         | inl item => loop keys' (values ++ [Badger.value item])
         end
     end) keys values
  = (None, values ++ map Badger.value items).
Proof.
  intros values Hall. revert values.
  induction Hall as [|key item keys items Hg _ IH]; intros values.
  - simpl. by rewrite app_nil_r.
  - rewrite Hg, IH. cbn [map]. by rewrite <- app_assoc.
Qed.

(** ... and when the key after [pre] is the first that does not. *)
Lemma GetList_loop_fail db pre items key e post : forall values,
  Forall2 (fun key item => Badger.Get db key = inl item) pre items ->
  Badger.Get db key = inr e ->
  fst ((fix loop (keys : list bytes) (values : list bytes) :=
     match keys with
     | [] => (@None Error, values)
     | key :: keys' =>
         match Badger.Get db key with
         | inr err => (Some err, values)
         | inl item => loop keys' (values ++ [Badger.value item])
         end
     end) (pre ++ key :: post) values)
  = Some e.
Proof.
  intros values Hall Hk. revert values.
  induction Hall as [|k item keys items Hg _ IH]; intros values.
  - simpl. by rewrite Hk.
  - cbn [app]. rewrite Hg. apply IH.
Qed.

End GetListFacts.

(** X5: [GetList] returns the values of the keys in the order asked when
    every key reads; when some key does not, it returns no values at all and
    the error of the first key that failed. *)
Theorem GetList_all_or_nothing db :
  (forall keys items,
     Forall2 (fun key item => Badger.Get db key = inl item) keys items ->
     GetList db keys = (map Badger.value items, None))
  /\ (forall pre items key e post,
        Forall2 (fun key item => Badger.Get db key = inl item) pre items ->
        Badger.Get db key = inr e ->
        GetList db (pre ++ key :: post) = ([], Some e)).
Proof.
  split.
  - intros keys items Hall. unfold GetList, Badger.View.
    by rewrite (GetList_loop_ok db keys items [] Hall).
  - intros pre items key e post Hall Hk. unfold GetList, Badger.View.
    pose proof (GetList_loop_fail db pre items key e post [] Hall Hk) as Hf.
    destruct ((fix loop (keys : list bytes) (values : list bytes) := _) _ _)
      as [err values]. simpl in Hf. by subst err.
Qed.

Lemma GetList_all_or_nothing_witness :
  let db := storeOf [(bs "a", bs "1"); (bs "b", bs "2")] in
  GetList db [bs "a"; bs "b"] = ([bs "1"; bs "2"], None)
  /\ GetList db ([bs "a"; bs "b"] ++ bs "c" :: []) = ([], Some ErrKeyNotFound).
Proof.
  intros db. split.
  - apply (proj1 (GetList_all_or_nothing db) [bs "a"; bs "b"]
             [Badger.mkItem (bs "a") (bs "1"); Badger.mkItem (bs "b") (bs "2")]).
    repeat constructor.
  - apply (proj2 (GetList_all_or_nothing db) [bs "a"; bs "b"]
             [Badger.mkItem (bs "a") (bs "1"); Badger.mkItem (bs "b") (bs "2")]).
    + repeat constructor.
    + reflexivity.
Defined.

(** ** Key enumeration *)

Section KeysFacts.

Lemma to_N_inj a c : Byte.to_N a = Byte.to_N c -> a = c.
Proof.
  intros Hn. pose proof (Byte.of_to_N a) as Ha. rewrite Hn, Byte.of_to_N in Ha.
  by injection Ha.
Qed.

Lemma bytes_leb_total x : forall y,
  Badger.bytes_leb x y = true \/ Badger.bytes_leb y x = true.
Proof.
  induction x as [|a x IH]; intros [|c y]; cbn [Badger.bytes_leb]; auto.
  destruct (decide (a = c)) as [->|Hne].
  - rewrite decide_True by done. apply IH.
  - rewrite decide_False by done.
    assert (Byte.to_N a <> Byte.to_N c) by (intros E; by apply Hne, to_N_inj).
    destruct (N.ltb_spec (Byte.to_N a) (Byte.to_N c)); [by left|right].
    apply N.ltb_lt. lia.
Qed.

Lemma bytes_leb_trans x : forall y z,
  Badger.bytes_leb x y = true -> Badger.bytes_leb y z = true ->
  Badger.bytes_leb x z = true.
Proof.
  induction x as [|a x IH]; intros [|c y] [|d z]; cbn [Badger.bytes_leb];
    try done.
  destruct (decide (a = c)) as [->|Hac]; destruct (decide (c = d)) as [->|Hcd].
  - apply IH.
  - done.
  - rewrite decide_False by done. done.
  - intros H1%N.ltb_lt H2%N.ltb_lt.
    destruct (decide (a = d)) as [->|_]; [lia|]. apply N.ltb_lt. lia.
Qed.

#[local] Instance bytes_le_total : Total Badger.bytes_le.
Proof. intros x y. apply bytes_leb_total. Qed.

#[local] Instance bytes_le_trans : Transitive Badger.bytes_le.
Proof. intros x y z. apply bytes_leb_trans. Qed.

Lemma keys_sorted db : StronglySorted Badger.bytes_le (Badger.keys db).
Proof. apply StronglySorted_merge_sort; apply _. Qed.

Lemma keys_elem db k : k ∈ Badger.keys db <-> is_Some (entries db !! k).
Proof.
  unfold Badger.keys. rewrite merge_sort_Permutation, elem_of_elements.
  apply elem_of_dom.
Qed.

Lemma keys_NoDup db : NoDup (Badger.keys db).
Proof.
  unfold Badger.keys. rewrite merge_sort_Permutation. apply NoDup_elements.
Qed.

(** A key that starts with [p] is not below [p]. *)
Lemma HasPrefix_leb p : forall k,
  Badger.HasPrefix k p = true -> Badger.bytes_leb p k = true.
Proof.
  induction p as [|a p IH]; intros [|c k];
    cbn [Badger.HasPrefix Badger.bytes_leb]; try done.
  destruct (decide (a = c)); [apply IH|done].
Qed.

(** The keys that start with [p] are next to each other: a key between [p]
    and a key that starts with [p] starts with [p] too. *)
Lemma HasPrefix_between p : forall k k',
  Badger.bytes_leb p k = true -> Badger.bytes_leb k k' = true ->
  Badger.HasPrefix k' p = true -> Badger.HasPrefix k p = true.
Proof.
  induction p as [|a p IH]; intros [|c k] [|d k'];
    cbn [Badger.HasPrefix Badger.bytes_leb]; try done.
  destruct (decide (a = d)) as [->|]; [|done].
  destruct (decide (d = c)) as [->|Hne].
  - rewrite decide_True by done. apply IH.
  - intros H1%N.ltb_lt. destruct (decide (c = d)) as [->|_]; [done|].
    intros H2%N.ltb_lt. lia.
Qed.

Lemma filter_none {A} (P : A -> Prop) `{forall x, Decision (P x)} (l : list A) :
  Forall (fun x => ~ P x) l -> filter P l = [].
Proof.
  induction 1 as [|x l Hx _ IH]; [done|].
  rewrite filter_cons, decide_False by done. exact IH.
Qed.

(** On keys in order that are all at or above [p], iterating while the
    prefix is valid visits exactly the keys that start with [p]. *)
Lemma whileValidForPrefix_filter p l :
  StronglySorted Badger.bytes_le l ->
  Forall (fun k => Badger.bytes_leb p k = true) l ->
  Badger.whileValidForPrefix p l
  = filter (fun k => Badger.HasPrefix k p = true) l.
Proof.
  induction 1 as [|k l Hs IH Hle]; intros Hp; [done|].
  inversion Hp as [|? ? Hk Hl]; subst. cbn [Badger.whileValidForPrefix].
  rewrite filter_cons. destruct (Badger.HasPrefix k p) eqn:E.
  - rewrite decide_True by done. by rewrite IH.
  - rewrite decide_False by done. symmetry. apply filter_none.
    rewrite Forall_forall in Hle. apply Forall_forall. intros k' Hin Hpre.
    rewrite (HasPrefix_between p k k' Hk (Hle k' Hin) Hpre) in E. done.
Qed.

(** [Seek] then the iteration: exactly the stored keys that start with the
    prefix, still in order. *)
Lemma seek_while_filter p l :
  StronglySorted Badger.bytes_le l ->
  Badger.whileValidForPrefix p (Badger.seek p l)
  = filter (fun k => Badger.HasPrefix k p = true) l.
Proof.
  induction 1 as [|k l Hs IH Hle]; [done|]. cbn [Badger.seek].
  destruct (Badger.bytes_leb p k) eqn:E.
  - apply whileValidForPrefix_filter; [by constructor|].
    constructor; [done|]. eapply Forall_impl; [exact Hle|].
    intros k' Hk'. by apply bytes_leb_trans with k.
  - rewrite filter_cons, decide_False; [exact IH|].
    intros Hpre. by rewrite (HasPrefix_leb p k Hpre) in E.
Qed.

(** The walk callbacks of the [keys] handler: every key is collected, no
    error is returned. *)
Lemma collect_keys l : forall errs (ks : list bytes),
  foldl (fun (st : list (option Error) * list bytes) key =>
           let '(err, s') := (@None Error, snd st ++ [key]) in
           (fst st ++ [err], s')) (errs, ks) l
  = (errs ++ replicate (List.length l) None, ks ++ l).
Proof.
  induction l as [|k l IH]; intros errs ks.
  - simpl. by rewrite !app_nil_r.
  - cbn [foldl fst snd]. rewrite IH. cbn [List.length replicate].
    by rewrite <- !app_assoc.
Qed.

Lemma errors_Join_nils n : errors_Join (replicate n None) = None.
Proof.
  unfold errors_Join.
  assert (omap id (replicate n (@None Error)) = []) as ->; [|done].
  induction n as [|n IH]; [done|]. exact IH.
Qed.

End KeysFacts.

(** X6: [KEYS] without an argument replies with one array holding every
    stored key exactly once, in ascending byte-wise order, and leaves the
    store as it was. *)
Theorem handleKeys_all c db :
  ArgN c = 0%nat ->
  handleKeys c db
  = (db, AppendArrayLen (Z.of_nat (List.length (Badger.keys db)))
         :: map AppendBulk (Badger.keys db))
  /\ StronglySorted Badger.bytes_le (Badger.keys db)
  /\ NoDup (Badger.keys db)
  /\ (forall k, k ∈ Badger.keys db <-> is_Some (entries db !! k)).
Proof.
  intros Hn. split; [|split; [apply keys_sorted|split; [apply keys_NoDup|apply keys_elem]]].
  unfold handleKeys. rewrite Hn. rewrite decide_False by lia.
  unfold WalkKeys, Badger.View. rewrite collect_keys.
  cbn [app]. by rewrite errors_Join_nils.
Qed.

Lemma handleKeys_all_witness :
  snd (handleKeys (mkCommand "keys" [])
         (storeOf [(bs "qwer", []); (bs "asdf", []); (bs "asd", [])]))
  = [AppendArrayLen 3; AppendBulk (bs "asd"); AppendBulk (bs "asdf");
     AppendBulk (bs "qwer")].
Proof.
  rewrite (proj1 (handleKeys_all (mkCommand "keys" [])
             (storeOf [(bs "qwer", []); (bs "asdf", []); (bs "asd", [])])
             eq_refl)).
  vm_compute. reflexivity.
Defined.

(** X7: [KEYS prefix] replies with one array holding exactly the stored
    keys that start with the prefix, in ascending order: the seek and the
    prefix-bounded iteration of [WalkKeysPrefix] miss none and add none. *)
Theorem handleKeys_prefix c db :
  ArgN c = 1%nat ->
  Badger.keysFrom db (Arg c 0)
  = filter (fun k => Badger.HasPrefix k (Arg c 0) = true) (Badger.keys db)
  /\ handleKeys c db
     = (db, AppendArrayLen (Z.of_nat (List.length (Badger.keysFrom db (Arg c 0))))
            :: map AppendBulk (Badger.keysFrom db (Arg c 0))).
Proof.
  intros Hn. split.
  - unfold Badger.keysFrom. apply seek_while_filter, keys_sorted.
  - unfold handleKeys. rewrite Hn. rewrite decide_False by lia.
    unfold WalkKeysPrefix, Badger.View. rewrite collect_keys.
    cbn [app]. by rewrite errors_Join_nils.
Qed.

Lemma handleKeys_prefix_witness :
  snd (handleKeys (mkCommand "keys" [bs "asd"])
         (storeOf [(bs "qwer", []); (bs "asdf", []); (bs "asd", []);
                   (bs "as", []); (bs "bloom", [])]))
  = [AppendArrayLen 2; AppendBulk (bs "asd"); AppendBulk (bs "asdf")].
Proof.
  rewrite (proj2 (handleKeys_prefix
             (mkCommand "keys" [bs "asd"])
             (storeOf [(bs "qwer", []); (bs "asdf", []); (bs "asd", []);
                       (bs "as", []); (bs "bloom", [])]) eq_refl)).
  vm_compute. reflexivity.
Defined.

(** ** Failed commands and the store *)

Section RollbackFacts.
Context `{Externals}.

(** A transaction whose function returns an error commits nothing. *)
Lemma Update_error {S : Type} db (fn : Txn -> S -> (Txn * option Error) * S)
    s db' e s' :
  Badger.Update db fn s = ((db', Some e), s') -> db' = db.
Proof.
  unfold Badger.Update. destruct (fn db s) as [[txn [e'|]] s'']; by intros [= <- _ _].
Qed.

Lemma Update_fst_error {S : Type} db (fn : Txn -> S -> (Txn * option Error) * S)
    s db' e :
  fst (Badger.Update db fn s) = (db', Some e) -> db' = db.
Proof.
  destruct (Badger.Update db fn s) as [[d o] s'] eqn:E. simpl. intros [= -> ->].
  by apply Update_error in E.
Qed.

Lemma Insert_error db k v db' e : Insert db k v = (db', Some e) -> db' = db.
Proof. apply Update_fst_error. Qed.

Lemma InsertExclusive_error db k v db' e :
  InsertExclusive db k v = (db', Some e) -> db' = db.
Proof. apply Update_fst_error. Qed.

Lemma DeleteBulk_error db keys db' e :
  DeleteBulk db keys = (db', Some e) -> db' = db.
Proof. apply Update_fst_error. Qed.

Lemma InsertBulk_error db l db' e :
  InsertBulk db l = Some (db', Some e) -> db' = db.
Proof.
  unfold InsertBulk. destruct (insertPairs db [] l) as [[txn errs]|]; [|done].
  intros [= Hu]. by apply Update_fst_error in Hu.
Qed.

Lemma UpdateFunc_error {S : Type} db k
    (fn : bytes -> S -> (bytes * option Error) * S) s db' e s' :
  UpdateFunc db k fn s = ((db', Some e), s') -> db' = db.
Proof. apply Update_error. Qed.

Ltac untouched :=
  intros; repeat case_match; simplify_eq/=; try done;
  eauto using Insert_error, InsertExclusive_error, DeleteBulk_error,
    InsertBulk_error, UpdateFunc_error.

Lemma BfInsert_error_untouched c db msg :
  snd (BfInsert c db) = [AppendError msg] -> fst (BfInsert c db) = db.
Proof. unfold BfInsert, BfInsert_switch, wrongArgs, bloomToBytes. untouched. Qed.

Lemma BfAdd_error_untouched c db msg :
  snd (BfAdd c db) = [AppendError msg] -> fst (BfAdd c db) = db.
Proof. unfold BfAdd, wrongArgs. untouched. Qed.

Lemma CfInsert_error_untouched c db msg :
  snd (CfInsert c db) = [AppendError msg] -> fst (CfInsert c db) = db.
Proof. unfold CfInsert, CfInsert_switch, wrongArgs. untouched. Qed.

Lemma CfAdd_error_untouched c db msg :
  snd (CfAdd c db) = [AppendError msg] -> fst (CfAdd c db) = db.
Proof. unfold CfAdd, wrongArgs. untouched. Qed.

Lemma handleDel_error_untouched c db msg :
  snd (handleDel c db) = [AppendError msg] -> fst (handleDel c db) = db.
Proof. unfold handleDel, wrongArgs. untouched. Qed.

Lemma handleSet_error_untouched c db msg :
  snd (handleSet c db) = [AppendError msg] -> fst (handleSet c db) = db.
Proof. unfold handleSet, wrongArgs. untouched. Qed.

Lemma handleMset_error_untouched c db msg :
  snd (handleMset c db) = [AppendError msg] -> fst (handleMset c db) = db.
Proof. unfold handleMset, wrongArgs. untouched. Qed.

(** The commands that only read return the store they were given. *)
Lemma readers_untouched c db :
  fst (BfCard c db) = db /\ fst (BfExists c db) = db
  /\ fst (CfCard c db) = db /\ fst (CfExists c db) = db
  /\ fst (handleGet c db) = db /\ fst (handleMget c db) = db
  /\ fst (handleKeys c db) = db
  /\ fst (Ping c db) = db /\ fst (Echo c db) = db /\ fst (Info c db) = db.
Proof.
  unfold BfCard, BfExists, CfCard, CfExists, handleGet, handleMget,
    handleKeys, Ping, Echo, Info.
  repeat split; repeat case_match; done.
Qed.

End RollbackFacts.

Section PerformFacts.
Context `{Externals}.

Ltac handler_untouched :=
  lazymatch goal with
  | |- snd (BfInsert _ _) = _ -> _ => apply BfInsert_error_untouched
  | |- snd (BfAdd _ _) = _ -> _ => apply BfAdd_error_untouched
  | |- snd (CfInsert _ _) = _ -> _ => apply CfInsert_error_untouched
  | |- snd (CfAdd _ _) = _ -> _ => apply CfAdd_error_untouched
  | |- snd (handleDel _ _) = _ -> _ => apply handleDel_error_untouched
  | |- snd (handleSet _ _) = _ -> _ => apply handleSet_error_untouched
  | |- snd (handleMset _ _) = _ -> _ => apply handleMset_error_untouched
  | |- snd (?h ?c ?db) = _ -> _ => intros _; apply (readers_untouched c db)
  end.

Ltac dispatch c name :=
  destruct (String.eqb name (ToLower (Name c))) eqn:?;
  [cbn [fmap option_fmap option_map snd]|].

Lemma perform_error_untouched c db msg :
  snd (perform c db) = [AppendError msg] -> fst (perform c db) = db.
Proof.
  unfold perform, lookupHandler, handlers. cbn [List.find fst snd].
  dispatch c "ping"%string; [handler_untouched|].
  dispatch c "echo"%string; [handler_untouched|].
  dispatch c "info"%string; [handler_untouched|].
  dispatch c "bf.insert"%string; [handler_untouched|].
  dispatch c "bf.add"%string; [handler_untouched|].
  dispatch c "bf.card"%string; [handler_untouched|].
  dispatch c "bf.exists"%string; [handler_untouched|].
  dispatch c "cf.insert"%string; [handler_untouched|].
  dispatch c "cf.add"%string; [handler_untouched|].
  dispatch c "cf.card"%string; [handler_untouched|].
  dispatch c "cf.exists"%string; [handler_untouched|].
  dispatch c "del"%string; [handler_untouched|].
  dispatch c "set"%string; [handler_untouched|].
  dispatch c "mset"%string; [handler_untouched|].
  dispatch c "get"%string; [handler_untouched|].
  dispatch c "mget"%string; [handler_untouched|].
  dispatch c "keys"%string; [handler_untouched|].
  done.
Qed.

Lemma perform_reader_untouched c db :
  In (ToLower (Name c)) readCommands -> fst (perform c db) = db.
Proof.
  intros Hin. unfold readCommands in Hin. simpl in Hin.
  pose proof (readers_untouched c db) as
    (HbC & HbE & HcC & HcE & Hg & Hmg & Hk & Hp & He & Hi).
  destruct Hin as [Hn|[Hn|[Hn|[Hn|[Hn|[Hn|[Hn|[Hn|[Hn|[Hn|[]]]]]]]]]]];
    symmetry in Hn.
  - by rewrite (perform_registered c db _ Ping Hn eq_refl).
  - by rewrite (perform_registered c db _ Echo Hn eq_refl).
  - by rewrite (perform_registered c db _ Info Hn eq_refl).
  - by rewrite (perform_registered c db _ BfCard Hn eq_refl).
  - by rewrite (perform_registered c db _ BfExists Hn eq_refl).
  - by rewrite (perform_registered c db _ CfCard Hn eq_refl).
  - by rewrite (perform_registered c db _ CfExists Hn eq_refl).
  - by rewrite (perform_registered c db _ handleGet Hn eq_refl).
  - by rewrite (perform_registered c db _ handleMget Hn eq_refl).
  - by rewrite (perform_registered c db _ handleKeys Hn eq_refl).
Qed.

End PerformFacts.

(** X8: a command answered with a single error reply has changed nothing:
    wrong argument counts, rejected options, failed reads and failed or
    rolled-back writes all leave the store as it was. *)
Theorem failed_command_leaves_store `{Externals} c db msg :
  snd (perform c db) = [AppendError msg] -> fst (perform c db) = db.
Proof. apply perform_error_untouched. Qed.

Lemma failed_command_leaves_store_witness :
  let db := storeOf [(bs "k", bs "v")] in
  fst (perform (H := testExternals)
         (mkCommand "cf.insert" [bs "k"; bs "capacity"; bs "8"]) db) = db.
Proof.
  intros db.
  apply (failed_command_leaves_store (H := testExternals)
           (mkCommand "cf.insert" [bs "k"; bs "capacity"; bs "8"]) db
           (ErrorText ErrKeyExists)).
  vm_compute. reflexivity.
Defined.

(** X9: the commands that only read ([PING], [ECHO], [INFO], [GET], [MGET],
    [KEYS], [BF.CARD], [BF.EXISTS], [CF.CARD], [CF.EXISTS]) return the store
    they were given, whatever their arguments and whatever the engine
    answers. *)
Theorem read_command_leaves_store `{Externals} c db :
  In (ToLower (Name c)) readCommands -> fst (perform c db) = db.
Proof. apply perform_reader_untouched. Qed.

Lemma read_command_leaves_store_witness :
  let db := storeOf [(bs "k", bs "v")] in
  fst (perform (H := testExternals) (mkCommand "BF.EXISTS" [bs "k"; bs "m"]) db)
  = db.
Proof.
  intros db.
  apply (read_command_leaves_store (H := testExternals)
           (mkCommand "BF.EXISTS" [bs "k"; bs "m"]) db).
  vm_compute. auto 12.
Defined.





(** ** Bits set stay set *)

Section BitFacts.

Lemma Uint64_PutUint64_mod o v :
  Binary.Uint64 o (Binary.PutUint64 o v) = v mod 2 ^ 64.
Proof.
  assert (Binary.Uint64 Binary.LittleEndian (Binary.PutUint64 Binary.LittleEndian v)
          = v mod 2 ^ 64) as Hle.
  { unfold Binary.Uint64, Binary.PutUint64.
    apply Z.bits_inj'. intros n Hn.
    rewrite <- (Z.shiftl_0_r (Binary.Z_of_byte (Binary.byte_of_Z v))).
    rewrite <- (Z.shiftr_0_r v) at 1.
    rewrite !Z.lor_spec, !byte_at_bits by lia.
    destruct (Z.ltb_spec n 64) as [Hlt|Hge].
    - rewrite Z.mod_pow2_bits_low by lia.
      assert (n < 8 \/ 8 <= n < 16 \/ 16 <= n < 24 \/ 24 <= n < 32 \/
              32 <= n < 40 \/ 40 <= n < 48 \/ 48 <= n < 56 \/ 56 <= n) as Hcase
        by lia.
      repeat destruct Hcase as [Hcase|Hcase];
        repeat match goal with
               | |- context [ (?a <=? ?b) ] => destruct (Z.leb_spec a b); try lia
               | |- context [ (?a <? ?b) ] => destruct (Z.ltb_spec a b); try lia
               end; simpl; rewrite ?orb_false_r; reflexivity.
    - rewrite Z.mod_pow2_bits_high by lia.
      repeat match goal with
             | |- context [ (?a <? ?b) ] => destruct (Z.ltb_spec a b); try lia
             end; rewrite ?andb_false_r; reflexivity. }
  destruct o; [exact Hle|].
  rewrite <- Hle. unfold Binary.Uint64, Binary.PutUint64.
  by rewrite rev_involutive.
Qed.

(** What [binary.Read] makes of what [binary.Write] wrote: the 64 low bits
    of the value. *)
Lemma Read64_Write64_mod o v rest :
  Binary.Read64 o (Binary.Write64 o v ++ rest) = (inl (v mod 2 ^ 64), rest).
Proof.
  unfold Binary.Read64, Binary.ReadFull, Binary.Write64.
  pose proof (PutUint64_length o v) as Hlen.
  destruct (Binary.PutUint64 o v ++ rest) as [|x l] eqn:E.
  { apply (f_equal List.length) in E. rewrite length_app in E. simpl in E. lia. }
  rewrite <- E. rewrite decide_False by (rewrite length_app; lia).
  rewrite take_app_length' by done. rewrite drop_app_length' by done.
  by rewrite Uint64_PutUint64_mod.
Qed.

(** A word masked with bit [j] is non-zero exactly when bit [j] is set. *)
Lemma land_bit w j :
  0 <= j -> negb (Z.land w (1 ≪ j) =? 0) = Z.testbit w j.
Proof.
  intros Hj. destruct (Z.testbit w j) eqn:E.
  - destruct (Z.eqb_spec (Z.land w (1 ≪ j)) 0) as [H0|]; [|done].
    apply (f_equal (fun z => Z.testbit z j)) in H0.
    rewrite Z.land_spec, E, Z.shiftl_spec, Z.sub_diag, Z.bits_0 in H0 by lia.
    done.
  - assert (Z.land w (1 ≪ j) = 0) as ->; [|done].
    apply Z.bits_inj'. intros n Hn.
    rewrite Z.land_spec, Z.bits_0, Z.shiftl_spec by lia.
    destruct (decide (n = j)) as [->|Hne]; [by rewrite E|].
    destruct (Z_lt_le_dec (n - j) 0).
    + rewrite (Z.testbit_neg_r 1) by lia. apply andb_false_r.
    + rewrite (Z.bits_above_log2 1) by (simpl; lia). apply andb_false_r.
Qed.

(** [Test] spelled out: the bit is inside the set and set in its word. *)
Lemma Bitset_Test_true b i :
  Bitset.Test b i = true <->
  i < Bitset.length b
  /\ exists w, Bitset.set b !! Z.to_nat (i ≫ Bitset.log2WordSize) = Some w
               /\ Z.testbit w (Bitset.wordsIndex i) = true.
Proof.
  pose proof (wordsIndex_range i) as Hj. unfold Bitset.Test.
  destruct (decide (Bitset.length b <= i)).
  - split; [done|]. intros [? _]. lia.
  - rewrite land_bit by lia.
    destruct (Bitset.set b !! _) as [w|]; simpl.
    + split; [intros Ht; split; [lia|by exists w] | by intros (_ & w' & [= <-] & Ht)].
    + rewrite Z.bits_0. split; [done|]. by intros (_ & w' & ? & _).
Qed.


(** All bits of a new set are clear. *)
Lemma Bitset_Test_New len i : Bitset.Test (Bitset.New len) i = false.
Proof.
  destruct (Bitset.Test (Bitset.New len) i) eqn:E; [|done].
  apply Bitset_Test_true in E as (_ & w & Hw & Hbit).
  apply lookup_replicate in Hw as [-> _]. by rewrite Z.bits_0 in Hbit.
Qed.



End BitFacts.

(** ** Membership through the filter and through the handlers *)

Section MembershipFacts.
Context `{Externals}.

(** A new filter has no member. *)
Lemma Bloom_Test_New n fp data :
  Bloom.Test (Bloom.NewWithEstimates n fp) data = false.
Proof.
  unfold Bloom.NewWithEstimates. destruct (EstimateParameters n fp) as [m k].
  unfold Bloom.Test, Bloom.New. cbn [Bloom.k Bloom.b].
  rewrite seqZ_cons by lia. cbn [forallb].
  by rewrite Bitset_Test_New.
Qed.








(** Adding a member that tests as present changes nothing. *)
Lemma testOrAdd_loop_present_id f h l : forall p bset,
  forallb (fun i => Bitset.Test bset (Bloom.f_location f h i)) l = true ->
  foldl (Bloom.testOrAdd_step f h) (p, bset) l = (p, bset).
Proof.
  induction l as [|i l IH]; intros p bset Hall; [done|].
  cbn [forallb] in Hall. apply andb_true_iff in Hall as [Hi Hl].
  cbn [foldl]. unfold Bloom.testOrAdd_step at 2. rewrite Hi. by apply IH.
Qed.

Lemma TestOrAdd_present_id f data :
  Bloom.Test f data = true -> Bloom.TestOrAdd f data = (true, f).
Proof.
  intros Hp. unfold Bloom.TestOrAdd.
  rewrite (testOrAdd_loop_present_id f (baseHashes data) _ true (Bloom.b f) Hp).
  by destruct f.
Qed.

(** What [bloomFromBytes] makes of a record of [bloomToBytes] followed by
    any bytes. *)
Lemma bloomFromBytes_record f capacity errorRate rest :
  wf_bloom f ->
  bloomFromBytes (fst (bloomToBytes f capacity errorRate) ++ rest)
  = inl (f, 0, errorRate mod 2 ^ 64).
Proof.
  intros Hf. unfold bloomFromBytes, bloomToBytes, Binary.Read_uint,
    Binary.Write_uint. cbn [fst app].
  rewrite <- app_assoc, Read64_Write64_mod.
  by rewrite Bloom_ReadFrom_WriteTo.
Qed.

Lemma bloomFromBytes_record_nil f capacity errorRate :
  wf_bloom f ->
  bloomFromBytes (fst (bloomToBytes f capacity errorRate))
  = inl (f, 0, errorRate mod 2 ^ 64).
Proof.
  intros Hf. rewrite <- (app_nil_r (fst _)). by apply bloomFromBytes_record.
Qed.

Lemma byte_of_Z_shift_mod v s :
  0 <= s <= 56 ->
  Binary.byte_of_Z ((v mod 2 ^ 64) ≫ s) = Binary.byte_of_Z (v ≫ s).
Proof.
  intros Hs. unfold Binary.byte_of_Z. do 3 f_equal.
  change 256 with (2 ^ 8). apply Z.bits_inj'. intros n Hn.
  destruct (Z_lt_le_dec n 8).
  - rewrite !Z.mod_pow2_bits_low, !Z.shiftr_spec by lia.
    apply Z.mod_pow2_bits_low. lia.
  - by rewrite !Z.mod_pow2_bits_high by lia.
Qed.

Lemma PutUint64_mod o v :
  Binary.PutUint64 o (v mod 2 ^ 64) = Binary.PutUint64 o v.
Proof.
  unfold Binary.PutUint64.
  pose proof (byte_of_Z_shift_mod v 0 ltac:(lia)) as H0.
  rewrite !Z.shiftr_0_r in H0.
  by rewrite H0, !byte_of_Z_shift_mod by lia.
Qed.

(** The record does not depend on the capacity, and only on the 64 low bits
    of the error rate. *)
Lemma bloomToBytes_mod f capacity capacity' errorRate :
  fst (bloomToBytes f capacity (errorRate mod 2 ^ 64))
  = fst (bloomToBytes f capacity' errorRate).
Proof.
  unfold bloomToBytes, Binary.Write_uint, Binary.Write64. cbn [fst app].
  by rewrite PutUint64_mod.
Qed.

(** [BF.EXISTS] on a stored record replies with the membership test. *)
Lemma BfExists_on_record c db key member f capacity errorRate :
  Args c = [key; member] -> wf_bloom f ->
  Badger.Get db key
  = inl (Badger.mkItem key (fst (bloomToBytes f capacity errorRate))) ->
  BfExists c db = (db, [AppendInt (if Bloom.Test f member then 1 else 0)]).
Proof.
  intros Hargs Hf Hg. unfold BfExists, ArgN, Arg. rewrite Hargs.
  cbn [List.length nth]. rewrite decide_False by (intros Hn; by apply Hn).
  rewrite (Get_present _ _ _ Hg). cbn [Badger.value].
  rewrite bloomFromBytes_record_nil by done.
  by destruct (Bloom.Test f member).
Qed.

(** [BF.ADD] on a stored record: the record written back and the reply. *)
Lemma BfAdd_on_record c db key member f capacity errorRate :
  Args c = [key; member] -> wf_bloom f ->
  Badger.Get db key
  = inl (Badger.mkItem key (fst (bloomToBytes f capacity errorRate))) ->
  (forall v, Badger.setFault db key v = None) ->
  BfAdd c db
  = (Badger.with_entries db
       (<[key := fst (bloomToBytes (snd (Bloom.TestOrAdd f member)) 0 errorRate)]>
          (entries db)),
     [AppendInt (if Bloom.Test f member then 1 else 0)]).
Proof.
  intros Hargs Hf Hg Hs.
  destruct (Badger_Get_inl _ _ _ Hg) as (Hk & _ & _).
  unfold BfAdd, ArgN, Arg. rewrite Hargs. cbn [List.length nth].
  rewrite decide_False by (intros Hn; by apply Hn).
  rewrite (UpdateFunc_present db key _ _ _ Hg). cbn [Badger.value].
  unfold BfAdd_fn. rewrite bloomFromBytes_record_nil by done.
  rewrite <- (TestOrAdd_returns_Test f member).
  destruct (Bloom.TestOrAdd f member) as [present f'].
  unfold bloomToBytes, Binary.Write_uint, Binary.Write64. cbn [fst snd app].
  rewrite PutUint64_mod, Insert_ok by done.
  by destruct present.
Qed.

Lemma Get_after_write db key value :
  key <> [] -> Badger.readFault db key = None ->
  Badger.Get (Badger.with_entries db (<[key := value]> (entries db))) key
  = inl (Badger.mkItem key value).
Proof.
  intros Hk Hr. apply Badger_Get_present; [done|done|].
  simpl. apply lookup_insert_eq.
Qed.

Lemma InsertExclusive_inv db key value db' :
  InsertExclusive db key value = (db', None) ->
  key <> [] /\ db' = Badger.with_entries db (<[key := value]> (entries db)).
Proof.
  unfold InsertExclusive, Badger.Update.
  destruct (Badger.Get db key) as [item|e]; [done|].
  unfold Badger.Set_. destruct (decide (key = [])); [done|].
  destruct (Badger.setFault db key value); [done|]. by intros [= <-].
Qed.

End MembershipFacts.

Section CreatedFacts.
Context `{Externals}.

(** A [BF.INSERT] answered with the array reply has stored the record of a
    new filter under its key. *)
Lemma BfInsert_created c db :
  snd (BfInsert c db) = [AppendArrayLen 1; AppendInt 1] ->
  exists capacity errorRate,
    Arg c 0 <> []
    /\ fst (BfInsert c db)
       = Badger.with_entries db
           (<[Arg c 0 := fst (bloomToBytes
                               (Bloom.NewWithEstimates capacity errorRate)
                               capacity errorRate)]> (entries db)).
Proof.
  unfold BfInsert, BfInsert_switch, wrongArgs, bloomToBytes.
  intros Hout. repeat case_match; simplify_eq/=;
    match goal with
    | E : InsertExclusive _ _ _ = (_, None) |- _ =>
        apply InsertExclusive_inv in E as [Hk ->]; by do 2 eexists
    end.
Qed.

End CreatedFacts.

(** X12: right after a [BF.INSERT] that created the record, [BF.EXISTS]
    replies 0 for every member (reads of the key not faulting): the filter
    starts empty, with no false positive. *)
Theorem BfInsert_then_BfExists `{Externals} c db name member :
  snd (BfInsert c db) = [AppendArrayLen 1; AppendInt 1] ->
  Badger.readFault db (Arg c 0) = None ->
  BfExists (mkCommand name [Arg c 0; member]) (fst (BfInsert c db))
  = (fst (BfInsert c db), [AppendInt 0]).
Proof.
  intros Hout Hr.
  destruct (BfInsert_created c db Hout) as (capacity & errorRate & Hk & ->).
  rewrite (BfExists_on_record _ _ (Arg c 0) member
             (Bloom.NewWithEstimates capacity errorRate) capacity errorRate);
    [by rewrite Bloom_Test_New | done | apply wf_bloom_NewWithEstimates |].
  by apply Get_after_write.
Qed.

Lemma BfInsert_then_BfExists_witness :
  let c := mkCommand "bf.insert"
             [bs "bloom"; bs "CAPACITY"; bs "50000"; bs "ERROR"; bs "0.01"] in
  BfExists (H := testExternals)
    (mkCommand "bf.exists" [Arg c 0; bs "+353873549906"])
    (fst (BfInsert (H := testExternals) c emptyDB))
  = (fst (BfInsert (H := testExternals) c emptyDB), [AppendInt 0]).
Proof.
  intros c.
  apply (BfInsert_then_BfExists (H := testExternals) c emptyDB).
  - vm_compute. reflexivity.
  - reflexivity.
Defined.



(** X14: [BF.ADD] of a member the stored filter already answers for leaves
    the store exactly as it was and replies 1; the record written back is
    byte for byte the one that was read. *)
Theorem BfAdd_present_is_noop `{Externals}
    c db key member f capacity errorRate :
  Args c = [key; member] ->
  wf_bloom f ->
  Badger.Get db key
  = inl (Badger.mkItem key (fst (bloomToBytes f capacity errorRate))) ->
  (forall v, Badger.setFault db key v = None) ->
  Bloom.Test f member = true ->
  BfAdd c db = (db, [AppendInt 1]).
Proof.
  intros Hargs Hf Hg Hs Hp.
  rewrite (BfAdd_on_record c db key member f capacity errorRate) by done.
  rewrite Hp, (TestOrAdd_present_id f member Hp). cbn [snd].
  destruct (Badger_Get_inl _ _ _ Hg) as (_ & _ & Hv). cbn [Badger.value] in Hv.
  rewrite insert_id by exact Hv. by rewrite with_entries_id.
Qed.

Lemma BfAdd_present_is_noop_witness :
  let f := snd (Bloom.TestOrAdd (H := testExternals)
                  (Bloom.NewWithEstimates (H := testExternals) 10 0) (bs "a")) in
  let db := storeOf [(bs "k", fst (bloomToBytes f 10 0))] in
  BfAdd (H := testExternals) (mkCommand "bf.add" [bs "k"; bs "a"]) db
  = (db, [AppendInt 1]).
Proof.
  intros f db.
  apply (BfAdd_present_is_noop (H := testExternals)
           (mkCommand "bf.add" [bs "k"; bs "a"]) db (bs "k") (bs "a") f 10 0).
  - reflexivity.
  - apply wf_bloom_TestOrAdd, wf_bloom_NewWithEstimates.
  - vm_compute. reflexivity.
  - reflexivity.
  - vm_compute. reflexivity.
Defined.

(** ** The Cuckoo codec *)

Section CuckooFacts.

Lemma Encode_length cf :
  List.length (Cuckoo.Encode cf) = (4 * List.length (Cuckoo.buckets cf))%nat.
Proof.
  unfold Cuckoo.Encode. induction (Cuckoo.buckets cf) as [|[[[f0 f1] f2] f3] l IH];
    [done|]. cbn [flat_map]. rewrite length_app, IH. simpl. lia.
Qed.

Lemma chunk_Encode cf : Cuckoo.chunk (Cuckoo.Encode cf) = Cuckoo.buckets cf.
Proof.
  unfold Cuckoo.Encode. induction (Cuckoo.buckets cf) as [|[[[f0 f1] f2] f3] l IH];
    [done|]. cbn [flat_map app Cuckoo.chunk]. by rewrite IH.
Qed.

Lemma Encode_chunk n : forall b,
  List.length b = (4 * n)%nat ->
  flat_map (fun b : Cuckoo.bucket => let '(f0, f1, f2, f3) := b in [f0; f1; f2; f3])
           (Cuckoo.chunk b) = b.
Proof.
  induction n as [|n IH]; intros b Hb.
  - by destruct b.
  - destruct b as [|f0 [|f1 [|f2 [|f3 b]]]]; simpl in Hb; try lia.
    cbn [Cuckoo.chunk flat_map app]. rewrite IH; [done|lia].
Qed.

Lemma NewFilter_buckets capacity :
  exists n, (1 <= n)%nat
    /\ Cuckoo.buckets (Cuckoo.NewFilter capacity) = replicate n Cuckoo.emptyBucket
    /\ Cuckoo.count (Cuckoo.NewFilter capacity) = 0
    /\ Cuckoo.bucketPow (Cuckoo.NewFilter capacity)
       = Cuckoo.TrailingZeros (Z.of_nat n).
Proof.
  unfold Cuckoo.NewFilter.
  set (x := Cuckoo.getNextPow2 capacity / Cuckoo.bucketSize).
  assert (0 <= x) as Hx.
  { apply Z.div_pos; [|done]. unfold Cuckoo.getNextPow2. apply uint64_range. }
  exists (Z.to_nat (if decide (x = 0) then 1 else x)). cbn [Cuckoo.buckets
    Cuckoo.count Cuckoo.bucketPow].
  destruct (decide (x = 0)); repeat split; try lia; by rewrite Z2Nat.id by lia.
Qed.

Lemma Encode_zeros n :
  flat_map (fun b : Cuckoo.bucket => let '(f0, f1, f2, f3) := b in [f0; f1; f2; f3])
           (replicate n Cuckoo.emptyBucket)
  = replicate (4 * n) x00.
Proof.
  induction n as [|n IH]; [done|]. cbn [replicate flat_map]. rewrite IH.
  replace (4 * S n)%nat with (S (S (S (S (4 * n))))) by lia. done.
Qed.

Lemma filter_zeros n : filter (fun f => f <> x00) (replicate n x00) = [].
Proof. apply filter_none, Forall_replicate. by intros Hf. Qed.

(** The record of a new filter decodes to that filter. *)
Lemma Decode_Encode_NewFilter capacity :
  Cuckoo.Decode (Cuckoo.Encode (Cuckoo.NewFilter capacity))
  = inl (Cuckoo.NewFilter capacity).
Proof.
  destruct (NewFilter_buckets capacity) as (n & Hn & Hb & Hc & Hp).
  pose proof (Encode_length (Cuckoo.NewFilter capacity)) as Hlen.
  pose proof (chunk_Encode (Cuckoo.NewFilter capacity)) as Hch.
  assert (Cuckoo.Encode (Cuckoo.NewFilter capacity) = replicate (4 * n) x00) as Hz
    by (unfold Cuckoo.Encode; by rewrite Hb, Encode_zeros).
  rewrite Hb, length_replicate in Hlen.
  unfold Cuckoo.Decode. rewrite Hch, Hlen.
  rewrite decide_False.
  2:{ intros Hne. apply Hne. unfold Cuckoo.bucketSize.
      rewrite Nat2Z.inj_mul, Z.mul_comm. apply Z.mod_mul. lia. }
  rewrite decide_False by lia.
  rewrite Hz, filter_zeros, Hb, length_replicate, <- Hp.
  destruct (Cuckoo.NewFilter capacity) as [bk cnt pw]. simpl in *. by subst.
Qed.

End CuckooFacts.

(** X15: the Cuckoo codec round-trips.  [Decode] after [Encode] gives back
    the buckets of any filter that has some, with the count of its non-zero
    fingerprints; [Encode] after a successful [Decode] gives back the bytes;
    an empty input and an input whose length is not a multiple of 4 are
    rejected. *)
Theorem Cuckoo_round_trip :
  (forall cf, Cuckoo.buckets cf <> [] ->
     Cuckoo.Decode (Cuckoo.Encode cf)
     = inl (Cuckoo.mkFilter (Cuckoo.buckets cf)
              (Z.of_nat (List.length
                           (filter (fun f => f <> x00) (Cuckoo.Encode cf))))
              (Cuckoo.TrailingZeros (Z.of_nat (List.length (Cuckoo.buckets cf))))))
  /\ (forall b cf, Cuckoo.Decode b = inl cf -> Cuckoo.Encode cf = b)
  /\ (forall b, (List.length b mod 4 <> 0)%nat \/ b = [] ->
        exists e, Cuckoo.Decode b = inr e).
Proof.
  split; [|split].
  - intros cf Hne. pose proof (Encode_length cf) as Hlen.
    unfold Cuckoo.Decode. rewrite chunk_Encode, Hlen.
    rewrite decide_False.
    2:{ intros Hm. apply Hm. unfold Cuckoo.bucketSize.
        rewrite Nat2Z.inj_mul, Z.mul_comm. apply Z.mod_mul. lia. }
    rewrite decide_False; [done|]. destruct (Cuckoo.buckets cf); [done|simpl; lia].
  - intros b cf. unfold Cuckoo.Decode.
    destruct (decide _) as [|Hm]; [done|].
    destruct (decide _); [done|]. intros [= <-]. unfold Cuckoo.Encode.
    cbn [Cuckoo.buckets].
    apply (Encode_chunk (List.length b / 4)).
    apply dec_stable in Hm. unfold Cuckoo.bucketSize in Hm.
    pose proof (Nat.div_mod_eq (List.length b) 4).
    assert (List.length b mod 4 = 0)%nat; [|lia].
    apply Nat2Z.inj. rewrite Nat2Z.inj_mod. exact Hm.
  - intros b [Hm| ->]; [|by eexists].
    unfold Cuckoo.Decode. rewrite decide_True; [by eexists|].
    unfold Cuckoo.bucketSize. intros Hz. apply Hm.
    apply Nat2Z.inj. by rewrite Nat2Z.inj_mod.
Qed.

Lemma Cuckoo_round_trip_witness :
  Cuckoo.Encode (Cuckoo.mkFilter [(x01, x00, x02, x00)] 2 0) = [x01; x00; x02; x00]
  /\ exists e, Cuckoo.Decode [x01; x00; x02] = inr e.
Proof.
  split.
  - apply (proj1 (proj2 Cuckoo_round_trip) [x01; x00; x02; x00]). reflexivity.
  - apply (proj2 (proj2 Cuckoo_round_trip)). left. simpl. lia.
Defined.

(** X16: right after a [CF.INSERT] that created the record, [CF.CARD]
    replies 0 (reads of the key not faulting): the record of a new filter is
    never empty, decodes, and counts no member. *)
Theorem CfInsert_then_CfCard c db name :
  snd (CfInsert c db) = [AppendOK] ->
  Badger.readFault db (Arg c 0) = None ->
  CfCard (mkCommand name [Arg c 0]) (fst (CfInsert c db))
  = (fst (CfInsert c db), [AppendInt 0]).
Proof.
  intros Hout Hr.
  assert (exists capacity, Arg c 0 <> []
            /\ fst (CfInsert c db)
               = Badger.with_entries db
                   (<[Arg c 0 := Cuckoo.Encode (Cuckoo.NewFilter capacity)]>
                      (entries db))) as (capacity & Hk & ->).
  { revert Hout. unfold CfInsert, CfInsert_switch, wrongArgs.
    intros Hout. repeat case_match; simplify_eq/=;
      match goal with
      | E : InsertExclusive _ _ _ = (_, None) |- _ =>
          apply InsertExclusive_inv in E as [Hk ->]; by eexists
      end. }
  unfold CfCard, ArgN, Arg. cbn [Args List.length nth].
  rewrite decide_False by (intros Hn; by apply Hn).
  rewrite (Get_present _ _ _ (Get_after_write db (Arg c 0) _ Hk Hr)).
  cbn [Badger.value]. rewrite Decode_Encode_NewFilter.
  destruct (NewFilter_buckets capacity) as (n & _ & _ & Hc & _).
  unfold Cuckoo.Count. by rewrite Hc.
Qed.

Lemma CfInsert_then_CfCard_witness :
  let c := mkCommand "cf.insert" [bs "cuckoo"; bs "CAPACITY"; bs "16"] in
  CfCard (mkCommand "cf.card" [Arg c 0]) (fst (CfInsert c emptyDB))
  = (fst (CfInsert c emptyDB), [AppendInt 0]).
Proof.
  intros c. apply (CfInsert_then_CfCard c emptyDB).
  - vm_compute. reflexivity.
  - reflexivity.
Defined.

(** ** Malformed Bloom records *)

Section ShortRecordFacts.
Context `{Externals}.

Lemma Read64_length o r v r' :
  Binary.Read64 o r = (inl v, r') -> List.length r = (8 + List.length r')%nat.
Proof.
  unfold Binary.Read64, Binary.ReadFull. destruct r as [|x r]; [done|].
  destruct (decide _) as [|Hlen]; [done|]. intros [= _ <-].
  rewrite length_drop. cbn [List.length] in *. lia.
Qed.

Lemma Read64_short o r :
  (List.length r < 8)%nat -> exists e, Binary.Read64 o r = (inr e, []).
Proof.
  intros Hlen. unfold Binary.Read64, Binary.ReadFull.
  destruct r as [|x r]; [by eexists|]. rewrite decide_True by done. by eexists.
Qed.

Lemma Bitset_ReadFrom_short r :
  (List.length r < 8)%nat -> exists e r', Bitset.ReadFrom r = (inr e, r').
Proof.
  intros Hlen. unfold Bitset.ReadFrom.
  destruct (Read64_short Binary.BigEndian r Hlen) as [e ->]. by do 2 eexists.
Qed.

Lemma Bloom_ReadFrom_short f r :
  (List.length r < 24)%nat -> exists e r', Bloom.ReadFrom f r = (inr e, r').
Proof.
  intros Hlen. unfold Bloom.ReadFrom.
  destruct (Binary.Read64 Binary.BigEndian r) as [[m'|e] r1] eqn:E1;
    [|by do 2 eexists].
  apply Read64_length in E1.
  destruct (Binary.Read64 Binary.BigEndian r1) as [[k'|e] r2] eqn:E2;
    [|by do 2 eexists].
  apply Read64_length in E2.
  destruct (Bitset_ReadFrom_short r2) as (e & r3 & ->); [lia|]. by do 2 eexists.
Qed.

End ShortRecordFacts.

(** X17: [bloomFromBytes] reads a record from the front of its input and
    does not look at what follows: any bytes after a well-formed record are
    ignored, not reported as a corrupt record. *)
Theorem bloomFromBytes_ignores_trailing_bytes `{Externals}
    f capacity errorRate rest :
  wf_bloom f ->
  bloomFromBytes (fst (bloomToBytes f capacity errorRate) ++ rest)
  = inl (f, 0, errorRate mod 2 ^ 64).
Proof. apply bloomFromBytes_record. Qed.

Lemma bloomFromBytes_ignores_trailing_bytes_witness :
  bloomFromBytes (H := testExternals)
    (fst (bloomToBytes (Bloom.New 100 3) 50000 float64_0_01) ++ bs "trailing")
  = inl (Bloom.New 100 3, 0, float64_0_01 mod 2 ^ 64).
Proof.
  apply (bloomFromBytes_ignores_trailing_bytes (H := testExternals)).
  apply wf_bloom_New; lia.
Defined.

(** X18: a value shorter than 32 bytes (the 8-byte error rate and the three
    8-byte fields every record starts with) is never taken for a Bloom
    record: [bloomFromBytes] returns an error. *)
Theorem bloomFromBytes_short_input `{Externals} blob :
  (List.length blob < 32)%nat -> exists e, bloomFromBytes blob = inr e.
Proof.
  intros Hlen. unfold bloomFromBytes, Binary.Read_uint.
  destruct (Binary.Read64 Binary.LittleEndian blob) as [[v|e] r1] eqn:E1.
  - apply Read64_length in E1.
    destruct (Bloom_ReadFrom_short (Bloom.NewWithEstimates 0 v) r1)
      as (e & r' & ->); [lia|]. by eexists.
  - destruct (Bloom_ReadFrom_short (Bloom.NewWithEstimates 0 0) r1)
      as (e' & r' & ->).
    + revert E1. unfold Binary.Read64, Binary.ReadFull.
      destruct blob as [|x l]; [intros [= _ <-]; simpl; lia|].
      destruct (decide _); [|done]. intros [= _ <-]. simpl. lia.
    + by eexists.
Qed.

Lemma bloomFromBytes_short_input_witness :
  exists e, bloomFromBytes (H := testExternals) (bs "asdfasdf") = inr e.
Proof.
  apply (bloomFromBytes_short_input (H := testExternals)). simpl. lia.
Defined.

(** ** Decimal option values *)

Section ParseUintFacts.

Lemma digit_decimal c d :
  Strconv.digit c = Some d -> d < 10 -> 48 <= c <= 57 /\ d = c - 48.
Proof.
  unfold Strconv.digit. destruct (decide (48 <= c <= 57)).
  - intros [= <-] _. lia.
  - destruct (decide (97 <= Strconv.lower c <= 122)); [|done].
    intros [= <-] Hd. lia.
Qed.

Lemma digit_of_decimal c : 48 <= c <= 57 -> Strconv.digit c = Some (c - 48).
Proof. intros Hc. unfold Strconv.digit. by rewrite decide_True. Qed.

Lemma decimal_step_mono cs : forall n,
  0 <= n -> Forall isDigit cs ->
  n <= foldl (fun n c => n * 10 + (Binary.Z_of_byte c - 48)) n cs.
Proof.
  induction cs as [|c cs IH]; intros n Hn Hd; [simpl; lia|].
  inversion Hd as [|? ? Hc Hcs]; subst. unfold isDigit in Hc. cbn [foldl].
  etransitivity; [|apply IH; [lia|done]]. lia.
Qed.

(** The loop accepts: the bytes were digits and the result is their value
    from [n] on, within the bound. *)
Lemma parseLoop_sound s0 cs : forall n v,
  0 <= n <= 2 ^ 32 - 1 ->
  Strconv.parseLoop s0 10 ((2 ^ 64 - 1) / 10 + 1) (2 ^ 32 - 1) cs n = (v, None) ->
  Forall isDigit cs
  /\ v = foldl (fun n c => n * 10 + (Binary.Z_of_byte c - 48)) n cs
  /\ 0 <= v <= 2 ^ 32 - 1.
Proof.
  induction cs as [|c cs IH]; intros n v Hn; cbn [Strconv.parseLoop foldl].
  - intros [= <-]. repeat split; [constructor|lia..].
  - destruct (Strconv.digit (Binary.Z_of_byte c)) as [d|] eqn:Ed; [|done].
    destruct (decide (10 <= d)); [done|].
    destruct (digit_decimal _ _ Ed ltac:(lia)) as [Hc ->].
    destruct (decide _); [done|].
    rewrite (uint64_small (n * 10)) by lia.
    rewrite uint64_small by lia.
    destruct (decide _) as [|Hok]; [done|].
    intros Hl. apply IH in Hl as (Hd & -> & Hv); [|lia].
    repeat split; [by constructor|lia..].
Qed.

(** The loop accepts every string of digits whose value is within the
    bound. *)
Lemma parseLoop_complete s0 cs : forall n,
  0 <= n -> Forall isDigit cs ->
  foldl (fun n c => n * 10 + (Binary.Z_of_byte c - 48)) n cs <= 2 ^ 32 - 1 ->
  Strconv.parseLoop s0 10 ((2 ^ 64 - 1) / 10 + 1) (2 ^ 32 - 1) cs n
  = (foldl (fun n c => n * 10 + (Binary.Z_of_byte c - 48)) n cs, None).
Proof.
  induction cs as [|c cs IH]; intros n Hn Hd Hv; [done|].
  inversion Hd as [|? ? Hc Hcs]; subst. unfold isDigit in Hc.
  cbn [Strconv.parseLoop foldl] in *.
  rewrite digit_of_decimal by done.
  pose proof (decimal_step_mono cs (n * 10 + (Binary.Z_of_byte c - 48))
                ltac:(lia) Hcs) as Hmono.
  change (2 ^ 32 - 1) with 4294967295 in *.
  rewrite decide_False by lia.
  rewrite decide_False by (change ((2 ^ 64 - 1) / 10 + 1) with 1844674407370955162; lia).
  rewrite (uint64_small (n * 10)) by lia.
  rewrite uint64_small by lia.
  rewrite decide_False by lia.
  apply IH; [lia|done|done].
Qed.

End ParseUintFacts.

(** X19: [ParseUint(s, 10, 32)], which reads the capacity option, succeeds
    exactly on the non-empty strings of ASCII decimal digits whose value is
    at most [2^32 - 1], and then returns that value: no sign, no space, no
    underscore, no hexadecimal digit is accepted. *)
Theorem ParseUint_decimal s v :
  Strconv.ParseUint s 10 32 = (v, None)
  <-> s <> ""%string
      /\ Forall isDigit (list_byte_of_string s)
      /\ decimalValue (list_byte_of_string s) <= 2 ^ 32 - 1
      /\ v = decimalValue (list_byte_of_string s).
Proof.
  unfold Strconv.ParseUint, decimalValue.
  destruct (String.eqb_spec s "") as [->|Hne].
  - split; [done|]. by intros [? _].
  - split.
    + intros Hp. apply parseLoop_sound in Hp as (Hd & -> & Hv); [|lia].
      repeat split; [done|done|lia].
    + intros (_ & Hd & Hv & ->). by apply parseLoop_complete.
Qed.

Lemma ParseUint_decimal_witness :
  Strconv.ParseUint "50000" 10 32 = (50000, None)
  /\ snd (Strconv.ParseUint "4294967296" 10 32) <> None
  /\ snd (Strconv.ParseUint "+5" 10 32) <> None.
Proof.
  split; [|split].
  - apply (proj2 (ParseUint_decimal "50000" 50000)).
    split; [discriminate|]. split; [|split; [vm_compute; discriminate|reflexivity]].
    repeat (constructor; [unfold isDigit, Binary.Z_of_byte; simpl; lia|]).
    constructor.
  - vm_compute. discriminate.
  - vm_compute. discriminate.
Defined.

(** ** GET, SET and DEL from the client *)

Section ScenarioFacts.
Context `{Externals}.

Lemma Forall_omap_nil {A B} (f : A -> option B) l :
  Forall (fun x => f x = None) l -> omap f l = [].
Proof.
  induction 1 as [|x l Hx _ IH]; [done|]. cbn [omap list_omap].
  by rewrite Hx.
Qed.

Lemma lookup_foldl_delete (ks : list bytes) : forall (m : gmap bytes bytes) k,
  foldl (fun m key => delete key m) m ks !! k
  = if decide (k ∈ ks) then None else m !! k.
Proof.
  induction ks as [|a ks IH]; intros m k.
  - cbn [foldl]. by rewrite decide_False by apply not_elem_of_nil.
  - cbn [foldl]. rewrite IH. destruct (decide (k ∈ ks)) as [Hin|Hnin].
    + rewrite decide_True; [done|]. by right.
    + destruct (decide (k = a)) as [->|Hne].
      * rewrite decide_True by left. apply lookup_delete_eq.
      * rewrite decide_False by (rewrite elem_of_cons; tauto).
        by apply lookup_delete_ne.
Qed.

Lemma handleDel_result c db :
  (1 <= ArgN c)%nat ->
  Forall (fun key => snd (Badger.Delete db key) = None) (Args c) ->
  handleDel c db
  = (Badger.with_entries db
       (foldl (fun m key => delete key m) (entries db) (Args c)),
     [AppendInt (Z.of_nat (ArgN c))]).
Proof.
  intros Hn Hok. unfold handleDel. rewrite decide_False by lia.
  by rewrite DeleteBulk_result, (Forall_omap_nil _ _ Hok).
Qed.

End ScenarioFacts.

(** X20: [DEL] replies with the number of keys it was given, whether they
    were in the store or not and counting a repeated key each time; after
    it, none of its keys is in the store.  (Each key can be deleted: it is
    not empty and the engine does not fault on it.) *)
Theorem handleDel_counts_requested c db :
  (1 <= ArgN c)%nat ->
  Forall (fun key => snd (Badger.Delete db key) = None) (Args c) ->
  snd (handleDel c db) = [AppendInt (Z.of_nat (ArgN c))]
  /\ (forall key, key ∈ Args c -> entries (fst (handleDel c db)) !! key = None)
  /\ (forall key, key ∉ Args c ->
        entries (fst (handleDel c db)) !! key = entries db !! key).
Proof.
  intros Hn Hok. rewrite (handleDel_result c db Hn Hok). cbn [fst snd].
  split; [done|]. split; intros key Hk; simpl; rewrite lookup_foldl_delete.
  - by rewrite decide_True.
  - by rewrite decide_False.
Qed.

Lemma handleDel_counts_requested_witness :
  snd (handleDel (mkCommand "del" [bs "asdf"; bs "nokey"; bs "asdf"])
         (storeOf [(bs "asdf", bs "asdfasdf")]))
  = [AppendInt 3].
Proof.
  apply (handleDel_counts_requested
           (mkCommand "del" [bs "asdf"; bs "nokey"; bs "asdf"])
           (storeOf [(bs "asdf", bs "asdfasdf")])).
  - cbv [ArgN Args List.length]. lia.
  - repeat constructor.
Defined.

(** X21: on a key the engine does not fault on, [SET k v] replies OK, the
    [GET k] that follows replies the bulk value [v], [DEL k] replies 1 and
    the [GET k] after it replies nil, not an error. *)
Theorem set_get_del_get `{Externals} db k v :
  k <> [] -> Badger.readFault db k = None ->
  Badger.setFault db k v = None -> Badger.deleteFault db k = None ->
  let db1 := fst (perform (mkCommand "SET" [k; v]) db) in
  let db2 := fst (perform (mkCommand "DEL" [k]) db1) in
  perform (mkCommand "SET" [k; v]) db = (db1, [AppendOK])
  /\ perform (mkCommand "GET" [k]) db1 = (db1, [AppendBulk v])
  /\ perform (mkCommand "DEL" [k]) db1 = (db2, [AppendInt 1])
  /\ perform (mkCommand "GET" [k]) db2 = (db2, [AppendNil]).
Proof.
  intros Hk Hr Hs Hd db1 db2.
  assert (perform (mkCommand "SET" [k; v]) db
          = (Badger.with_entries db (<[k := v]> (entries db)), [AppendOK])) as Hset.
  { rewrite (perform_registered (mkCommand "SET" [k; v]) db "set" handleSet
               eq_refl eq_refl).
    unfold handleSet, ArgN, Arg. cbn [Args List.length nth].
    rewrite decide_False by (intros Hn; by apply Hn). by rewrite Insert_ok. }
  assert (db1 = Badger.with_entries db (<[k := v]> (entries db))) as Hdb1
    by (unfold db1; by rewrite Hset).
  assert (perform (mkCommand "DEL" [k]) db1
          = (Badger.with_entries db1 (delete k (entries db1)), [AppendInt 1]))
    as Hdel.
  { rewrite (perform_registered (mkCommand "DEL" [k]) db1 "del" handleDel
               eq_refl eq_refl).
    rewrite handleDel_result; [done|cbv [ArgN Args List.length]; lia|].
    constructor; [|constructor]. unfold Badger.Delete.
    rewrite decide_False by done. rewrite Hdb1. simpl. by rewrite Hd. }
  assert (db2 = Badger.with_entries db1 (delete k (entries db1))) as Hdb2
    by (unfold db2; by rewrite Hdel).
  split; [by rewrite Hdb1|]. split; [|split; [by rewrite Hdb2|]].
  - rewrite (perform_registered (mkCommand "GET" [k]) db1 "get" handleGet
               eq_refl eq_refl).
    unfold handleGet, ArgN, Arg. cbn [Args List.length nth].
    rewrite decide_False by (intros Hn; by apply Hn).
    rewrite (Get_present db1 k (Badger.mkItem k v)); [done|].
    rewrite Hdb1. by apply Get_after_write.
  - rewrite (perform_registered (mkCommand "GET" [k]) db2 "get" handleGet
               eq_refl eq_refl).
    unfold handleGet, ArgN, Arg. cbn [Args List.length nth].
    rewrite decide_False by (intros Hn; by apply Hn).
    rewrite (Get_failed db2 k ErrKeyNotFound); [done|].
    unfold Badger.Get. rewrite decide_False by done.
    rewrite Hdb2, Hdb1. simpl. by rewrite Hr, lookup_delete_eq.
Qed.

Lemma set_get_del_get_witness :
  let db1 := fst (perform (H := testExternals)
                    (mkCommand "SET" [bs "asdf"; bs "asdfasdf"]) emptyDB) in
  perform (H := testExternals) (mkCommand "GET" [bs "asdf"]) db1
  = (db1, [AppendBulk (bs "asdfasdf")]).
Proof.
  intros db1.
  refine (proj1 (proj2 (set_get_del_get (H := testExternals) emptyDB
                          (bs "asdf") (bs "asdfasdf") _ _ _ _))); done.
Defined.

(** ** Walking the keys *)

Section WalkFacts.

Lemma walk_loop {S : Type} (err : bytes -> option Error) (step : bytes -> S -> S) l :
  forall errs s,
  foldl (fun (st : list (option Error) * S) key =>
           let '(e, s') := (err key, step key (snd st)) in
           (fst st ++ [e], s')) (errs, s) l
  = (errs ++ map err l, foldl (fun s key => step key s) s l).
Proof.
  induction l as [|k l IH]; intros errs s.
  - simpl. by rewrite app_nil_r.
  - cbn [foldl fst snd map]. rewrite IH. by rewrite <- app_assoc.
Qed.

End WalkFacts.

(** X22: [WalkKeys] and [WalkKeysPrefix] call the callback on every key
    they enumerate, in order, whether or not earlier calls returned an
    error, and return the join of all the errors (nil when there were
    none).  The callback returns [err key] and takes its captured state from
    [s] to [step key s]. *)
Theorem WalkKeys_visits_every_key {S : Type} db prefix
    (err : bytes -> option Error) (step : bytes -> S -> S) s :
  WalkKeys db (fun key s => (err key, step key s)) s
  = (errors_Join (map err (Badger.keys db)),
     foldl (fun s key => step key s) s (Badger.keys db))
  /\ WalkKeysPrefix db prefix (fun key s => (err key, step key s)) s
     = (errors_Join (map err (Badger.keysFrom db prefix)),
        foldl (fun s key => step key s) s (Badger.keysFrom db prefix)).
Proof.
  split.
  - unfold WalkKeys, Badger.View. by rewrite walk_loop.
  - unfold WalkKeysPrefix, Badger.View. by rewrite walk_loop.
Qed.

(** ** No value under the empty key *)

Section EmptyKeyFacts.
Context `{Externals}.

Lemma Set_noEmptyKey txn key value :
  noEmptyKey txn -> noEmptyKey (fst (Badger.Set_ txn key value)).
Proof.
  intros Hn. unfold Badger.Set_. destruct (decide (key = [])); [done|].
  destruct (Badger.setFault txn key value); [done|].
  unfold noEmptyKey. simpl. by rewrite lookup_insert_ne.
Qed.

Lemma Insert_noEmptyKey db key value :
  noEmptyKey db -> noEmptyKey (fst (Insert db key value)).
Proof.
  intros Hn. rewrite Insert_eq.
  pose proof (Set_noEmptyKey db key value Hn).
  by destruct (Badger.Set_ db key value) as [txn [e|]].
Qed.

Lemma InsertExclusive_noEmptyKey db key value :
  noEmptyKey db -> noEmptyKey (fst (InsertExclusive db key value)).
Proof.
  intros Hn. destruct (Badger.Get db key) as [item|e] eqn:E.
  - by rewrite (InsertExclusive_present _ _ _ _ E).
  - rewrite (InsertExclusive_unread _ _ _ _ E). by apply Insert_noEmptyKey.
Qed.

Lemma DeleteBulk_noEmptyKey db keys :
  noEmptyKey db -> noEmptyKey (fst (DeleteBulk db keys)).
Proof.
  intros Hn. rewrite DeleteBulk_result.
  destruct (omap _ keys); [|done]. unfold noEmptyKey. simpl.
  rewrite lookup_foldl_delete. by destruct (decide _).
Qed.

Lemma insertPairs_noEmptyKey l :
  (forall txn errs txn' errs',
     noEmptyKey txn -> insertPairs txn errs l = Some (txn', errs') ->
     noEmptyKey txn')
  /\ (forall x txn errs txn' errs',
        noEmptyKey txn -> insertPairs txn errs (x :: l) = Some (txn', errs') ->
        noEmptyKey txn').
Proof.
  induction l as [|a l [IH1 IH2]].
  - split; [by intros txn errs txn' errs' Hn [= <- _]|done].
  - split; [exact (IH2 a)|].
    intros x txn errs txn' errs' Hn. cbn [insertPairs].
    pose proof (Set_noEmptyKey txn x a Hn) as Hn'.
    destruct (Badger.Set_ txn x a) as [txn1 err]. by apply IH1.
Qed.

Lemma InsertBulk_noEmptyKey db l db' e :
  noEmptyKey db -> InsertBulk db l = Some (db', e) -> noEmptyKey db'.
Proof.
  intros Hn. unfold InsertBulk, Badger.Update.
  destruct (insertPairs db [] l) as [[txn errs]|] eqn:E; [|done].
  apply (proj1 (insertPairs_noEmptyKey l)) in E; [|done].
  destruct (errors_Join errs); by intros [= <- _].
Qed.

Lemma UpdateFunc_noEmptyKey {S : Type} db key
    (fn : bytes -> S -> (bytes * option Error) * S) s :
  noEmptyKey db -> noEmptyKey (fst (fst (UpdateFunc db key fn s))).
Proof.
  intros Hn. destruct (Badger.Get db key) as [item|e] eqn:E.
  - rewrite (UpdateFunc_present _ _ _ _ _ E). by apply Insert_noEmptyKey.
  - by rewrite (UpdateFunc_failed _ _ _ _ _ E).
Qed.

Ltac keep_noEmptyKey :=
  intros; repeat case_match; simplify_eq/=; try done;
  match goal with
  | E : Insert ?db ?k ?v = _ |- _ =>
      pose proof (Insert_noEmptyKey db k v) as Hkeep; rewrite E in Hkeep; auto
  | E : InsertExclusive ?db ?k ?v = _ |- _ =>
      pose proof (InsertExclusive_noEmptyKey db k v) as Hkeep;
      rewrite E in Hkeep; auto
  | E : DeleteBulk ?db ?ks = _ |- _ =>
      pose proof (DeleteBulk_noEmptyKey db ks) as Hkeep; rewrite E in Hkeep; auto
  | E : InsertBulk ?db ?l = Some _ |- _ =>
      eauto using InsertBulk_noEmptyKey
  | E : UpdateFunc ?db ?k ?fn ?s = _ |- _ =>
      pose proof (UpdateFunc_noEmptyKey db k fn s) as Hkeep;
      rewrite E in Hkeep; auto
  end.

Lemma writers_noEmptyKey c db :
  noEmptyKey db ->
  noEmptyKey (fst (BfInsert c db)) /\ noEmptyKey (fst (BfAdd c db))
  /\ noEmptyKey (fst (CfInsert c db)) /\ noEmptyKey (fst (CfAdd c db))
  /\ noEmptyKey (fst (handleDel c db)) /\ noEmptyKey (fst (handleSet c db))
  /\ noEmptyKey (fst (handleMset c db)).
Proof.
  intros Hn.
  unfold BfInsert, BfInsert_switch, BfAdd, CfInsert, CfInsert_switch, CfAdd,
    handleDel, handleSet, handleMset, wrongArgs, bloomToBytes.
  repeat split; keep_noEmptyKey.
Qed.

Ltac dispatch c name :=
  destruct (String.eqb name (ToLower (Name c))) eqn:?;
  [cbn [fmap option_fmap option_map snd]|].

Lemma perform_noEmptyKey c db :
  noEmptyKey db -> noEmptyKey (fst (perform c db)).
Proof.
  intros Hn. unfold perform, lookupHandler, handlers. cbn [List.find fst snd].
  pose proof (readers_untouched c db) as
    (HbC & HbE & HcC & HcE & Hg & Hmg & Hk & Hp & He & Hi).
  pose proof (writers_noEmptyKey c db Hn) as
    (WbI & WbA & WcI & WcA & Wd & Ws & Wm).
  dispatch c "ping"%string; [by rewrite Hp|].
  dispatch c "echo"%string; [by rewrite He|].
  dispatch c "info"%string; [by rewrite Hi|].
  dispatch c "bf.insert"%string; [done|].
  dispatch c "bf.add"%string; [done|].
  dispatch c "bf.card"%string; [by rewrite HbC|].
  dispatch c "bf.exists"%string; [by rewrite HbE|].
  dispatch c "cf.insert"%string; [done|].
  dispatch c "cf.add"%string; [done|].
  dispatch c "cf.card"%string; [by rewrite HcC|].
  dispatch c "cf.exists"%string; [by rewrite HcE|].
  dispatch c "del"%string; [done|].
  dispatch c "set"%string; [done|].
  dispatch c "mset"%string; [done|].
  dispatch c "get"%string; [by rewrite Hg|].
  dispatch c "mget"%string; [by rewrite Hmg|].
  dispatch c "keys"%string; [by rewrite Hk|].
  done.
Qed.

End EmptyKeyFacts.

(** X23: no command ever stores a value under the empty key: a store without
    one stays without one through every command, so a server started on an
    empty store never holds one. *)
Theorem empty_key_never_stored `{Externals} :
  (forall c db, noEmptyKey db -> noEmptyKey (fst (perform c db)))
  /\ (forall cmds, noEmptyKey (foldl (fun db c => fst (perform c db)) emptyDB cmds)).
Proof.
  split; [apply perform_noEmptyKey|].
  intros cmds. assert (noEmptyKey emptyDB) as Hn by done. revert Hn.
  generalize emptyDB. induction cmds as [|c cmds IH]; intros db Hn; [done|].
  cbn [foldl]. by apply IH, perform_noEmptyKey.
Qed.

Lemma empty_key_never_stored_witness :
  noEmptyKey (fst (perform (H := testExternals)
                     (mkCommand "mset" [bs "a"; bs "1"; []; bs "2"]) emptyDB)).
Proof.
  apply (proj1 (empty_key_never_stored (H := testExternals))). reflexivity.
Defined.
